(** * vcsstore: the repository registry of [service.go]

    A shallow embedding of [Config.CloneDir], [NewService], [service.open],
    [service.Open], [service.Close], [service.Clone] and [service.Mutex],
    run over an explicit model of the disk, the heap of Go objects and the
    trace of calls made to the operating system and to the VCS backend;
    and, beside the registry, of [isLowercaseLetter], of the tree entries
    of [vcsclient] and [server] ([TreeEntry.Stat], [newTreeEntry]), of the
    revision and ref functions of the git backend [gitcmd]
    ([ResolveRevision], [ResolveBranch], [ResolveTag], [showRef]) and of
    the file names of its benchmarks. *)

From stdpp Require Import gmap strings list fin_maps sorting pretty.
From Stdlib Require Import ZArith Lia.

Local Open Scope Z_scope.

(** ** Data *)

(** A path is a cleaned slash-separated Go string, kept as its components
    and read from the working directory of the process: ["a/b"] is
    [["a"; "b"]] and ["."] is [[]].  Repository paths, clone directories
    and the [cloneDir] field of [repoKey] are all such strings. *)
Abbreviation path := (list string).

Inductive node := File | Dir.

Global Instance node_eq_dec : EqDecision node.
Proof. solve_decision. Defined.

Abbreviation fs := (gmap path node).

Inductive errno := ENOENT | ENOTDIR | EEXIST | ENOTEMPTY | EISDIR | EINVAL.

Global Instance errno_eq_dec : EqDecision errno.
Proof. solve_decision. Defined.

(** Go [error] values met by the registry: [os.ErrNotExist], the
    [*os.PathError] / [*os.LinkError] of a failed system call, the
    [fmt.Errorf] of [open], and whatever else a collaborator reports. *)
Inductive error :=
  | ErrNotExist
  | PathError (op : string) (p : path) (e : errno)
  | NotADirectory (p : path)
  | Errorf (msg : string).

Global Instance error_eq_dec : EqDecision error.
Proof. solve_decision. Defined.

(** [os.IsNotExist]; [None] is the [nil] error. *)
Definition IsNotExist (err : option error) : bool :=
  match err with
  | Some ErrNotExist => true
  | Some (PathError _ _ ENOENT) => true
  | _ => false
  end.

(** A Go [(value, error)] pair with the usual discipline: [inl v] is
    [(v, nil)] and [inr err] is [(nil, err)]. *)
Abbreviation result A := (A + error)%type.

Definition err_of {A} (r : result A) : option error :=
  match r with inl _ => None | inr e => Some e end.

(** An opened repository: the object [vcs.Open] allocates.  [h_id] is its
    address, so two handles are the same instance iff they are equal. *)
Record handle := Handle { h_id : nat; h_vcs : string; h_dir : path }.

Global Instance handle_eq_dec : EqDecision handle.
Proof. solve_decision. Defined.

(** [vcsclient.CloneInfo], with the remote options left opaque. *)
Record CloneInfo := { VCS : string; CloneURL : string; RemoteOpts : string }.

(** Go's [int] on a 64-bit target: two's complement wrap-around. *)
Definition int_wrap (z : Z) : Z := (z + 2 ^ 63) mod 2 ^ 64 - 2 ^ 63.

(** [type service struct].  [repoKey] has the single field [cloneDir], so
    the maps are keyed by the clone directory itself.  [repoMu] holds the
    addresses of the [*sync.RWMutex] objects.  A missing key of [repos]
    reads as [nil]; stored handles are never [nil].  [repoMuMu] guards the
    three maps: each block run under it below is one atomic step. *)
Record service := Service {
  StorageDir : path;
  repoMu : gmap path nat;
  repos : gmap path handle;
  repoUsers : gmap path Z;
}.

(** What the registry tells its surroundings to do. *)
Inductive event :=
  | EvDetect (dir : path)
  | EvStat (p : path)
  | EvVcsOpen (vcsType : string) (dir : path)
  | EvMkdirAll (p : path)
  | EvTempDir (dir : path) (pfx : string)
  | EvVcsClone (dir : path) (err : option error)
  | EvRename (old new : path)
  | EvRemoveAll (p : path)
  | EvLock (mu : nat)
  | EvUnlock (mu : nat).

Global Instance event_eq_dec : EqDecision event.
Proof. solve_decision. Defined.

(** The process: the service, the disk it sees, the next free heap
    address, and the calls made so far (oldest first). *)
Record world := World {
  svc : service;
  disk : fs;
  heap : nat;
  trace : list event;
}.

(** ** Collaborators

    [EncodeRepositoryPath] and [vcsTypeFromDir] belong to this package but
    are not among the sources at hand; [vcs.Open] and [vcs.Clone] are the
    go-vcs backend; the suffix is the random number [ioutil.TempDir]
    settles on.  They are parameters of the development. *)
Class Backend := {
  EncodeRepositoryPath : path → path;
  vcsTypeFromDir : fs → path → result string;
  vcs_Open : fs → string → path → option error;
  vcs_Clone : fs → CloneInfo → path → fs * option error;
  temp_suffix : fs → path → string → string;
}.

(** ** The [os] and [io/ioutil] calls of [service.go], on the disk model *)

(** [filepath.Join], [filepath.Dir] and [filepath.Base] on cleaned paths. *)
Definition filepath_Join (a b : path) : path := a ++ b.
Definition filepath_Dir (p : path) : path := removelast p.
Definition filepath_Base (p : path) : string := List.last p ".".

(** [os.Stat]: a path with no entry does not exist.  Path resolution
    failing for another reason (permissions, a regular file in the place
    of a parent directory) is outside the disk model. *)
Definition os_Stat (d : fs) (p : path) : result node :=
  match d !! p with
  | Some n => inl n
  | None => inr (PathError "stat" p ENOENT)
  end.

(** [os.MkdirAll]: every ancestor from the working directory down becomes a
    directory; a regular file on the way is [ENOTDIR]. *)
Fixpoint mkdir_all (above below : path) (d : fs) : result fs :=
  match d !! above with
  | Some File => inr (PathError "mkdir" above ENOTDIR)
  | _ =>
      let d' := <[above := Dir]> d in
      match below with
      | [] => inl d'
      | c :: below' => mkdir_all (above ++ [c]) below' d'
      end
  end.

Definition os_MkdirAll (d : fs) (p : path) : result fs := mkdir_all [] p d.

(** The entries at or below [p]. *)
Definition subtree (p : path) (d : fs) : fs :=
  filter (λ kv, p `prefix_of` kv.1) d.

(** [os.RemoveAll]: [p] and everything below it goes; a missing [p] is not
    an error.  The disk model has no permissions, so the call cannot fail
    (its error is dropped by [Clone] anyway). *)
Definition os_RemoveAll (d : fs) (p : path) : fs :=
  filter (λ kv, ¬ p `prefix_of` kv.1) d.

(** The entries of [old]'s subtree, re-rooted at [new]. *)
Definition rerooted (old new : path) (d : fs) : fs :=
  list_to_map ((λ kv, (new ++ drop (length old) kv.1, kv.2)) <$>
               map_to_list (subtree old d)).

(** [os.Rename] as rename(2) has it: the source must exist, renaming a
    path to itself does nothing, nothing moves below itself, a directory
    replaces only an empty directory and a file only a file. *)
Definition os_Rename (d : fs) (old new : path) : result fs :=
  match d !! old with
  | None => inr (PathError "rename" old ENOENT)
  | Some n =>
      if bool_decide (old = new) then inl d
      else if bool_decide (old `prefix_of` new)
      then inr (PathError "rename" new EINVAL)
      else
        let go := inl (rerooted old new d ∪ os_RemoveAll (os_RemoveAll d old) new) in
        match d !! new, n with
        | Some File, Dir => inr (PathError "rename" new ENOTDIR)
        | Some Dir, File => inr (PathError "rename" new EISDIR)
        | Some Dir, Dir =>
            if bool_decide (subtree new d = {[new := Dir]})
            then go else inr (PathError "rename" new ENOTEMPTY)
        | _, _ => go
        end
  end.

(** ** The state monad of the process *)

Definition M (A : Type) : Type := world → A * world.

Global Instance M_ret : MRet M := λ A a w, (a, w).
Global Instance M_bind : MBind M := λ A C f m w, let '(a, w') := m w in f a w'.

Definition emit (e : event) : M unit :=
  λ w, (tt, World (svc w) (disk w) (heap w) (trace w ++ [e])).
Definition get_disk : M fs := λ w, (disk w, w).
Definition put_disk (d : fs) : M unit :=
  λ w, (tt, World (svc w) d (heap w) (trace w)).
Definition get_svc : M service := λ w, (svc w, w).
Definition put_svc (s : service) : M unit :=
  λ w, (tt, World s (disk w) (heap w) (trace w)).
(** [&T{}] / a constructor call: a fresh address. *)
Definition alloc : M nat :=
  λ w, (heap w, World (svc w) (disk w) (S (heap w)) (trace w)).

Definition set_repoMu (f : gmap path nat → gmap path nat) (s : service) : service :=
  Service (StorageDir s) (f (repoMu s)) (repos s) (repoUsers s).
Definition set_repos (f : gmap path handle → gmap path handle) (s : service) : service :=
  Service (StorageDir s) (repoMu s) (f (repos s)) (repoUsers s).
Definition set_repoUsers (f : gmap path Z → gmap path Z) (s : service) : service :=
  Service (StorageDir s) (repoMu s) (repos s) (f (repoUsers s)).

(** Reading a Go [map[repoKey]int] at a missing key gives [0]. *)
Definition users (s : service) (key : path) : Z := default 0 (repoUsers s !! key).

(** ** Tasks

    A call into the registry is a sequence of atomic steps: a block run
    under [repoMuMu], or one call to the system or the backend.  Other
    goroutines may run between two steps, never inside one. *)
Inductive task (A : Type) : Type :=
  | Done (a : A)
  | Atomic {X : Type} (m : M X) (k : X → task A).
Arguments Done {A} a.
Arguments Atomic {A X} m k.

Fixpoint task_bind {A C} (f : A → task C) (t : task A) : task C :=
  match t with
  | Done a => f a
  | Atomic m k => Atomic m (λ x, task_bind f (k x))
  end.

Global Instance task_ret : MRet task := λ A a, Done a.
Global Instance task_mbind : MBind task := λ A C f t, task_bind f t.

Definition atomic {X} (m : M X) : task X := Atomic m Done.

(** A call run from start to end with nothing in between. *)
Fixpoint run {A} (t : task A) : M A :=
  match t with
  | Done a => mret a
  | Atomic m k => λ w, let '(x, w') := m w in run (k x) w'
  end.

(** One step of a goroutine; a finished one stays as it is. *)
Definition step {A} (t : task A) : M (task A) :=
  match t with
  | Done a => mret (Done a)
  | Atomic m k => λ w, let '(x, w') := m w in (k x, w')
  end.

(** Goroutines run under a schedule: the list of who moves next. *)
Fixpoint interleave {A} (sched : list nat) (pool : list (task A)) : M (list (task A)) :=
  match sched with
  | [] => mret pool
  | i :: sched' =>
      match pool !! i with
      | None => interleave sched' pool
      | Some t => λ w, let '(t', w') := step t w in interleave sched' (<[i := t']> pool) w'
      end
  end.

Section registry.
Context `{B : Backend}.

(** [ioutil.TempDir]: a fresh directory [pfx ++ suffix] inside [dir]; it
    gives up with [EEXIST] when the names it draws are taken. *)
Definition ioutil_TempDir (d : fs) (dir : path) (pfx : string) : result (path * fs) :=
  let name := dir ++ [pfx +:+ temp_suffix d dir pfx] in
  match d !! dir with
  | None => inr (PathError "mkdir" name ENOENT)
  | Some File => inr (PathError "mkdir" name ENOTDIR)
  | Some Dir =>
      match d !! name with
      | Some _ => inr (PathError "mkdir" name EEXIST)
      | None => inl (name, <[name := Dir]> d)
      end
  end.

(** ** Calls out of the registry, each leaving its event *)

Definition do_vcsTypeFromDir (dir : path) : M (result string) :=
  _ ← emit (EvDetect dir);
  d ← get_disk;
  mret (vcsTypeFromDir d dir).

Definition do_Stat (p : path) : M (result node) :=
  _ ← emit (EvStat p);
  d ← get_disk;
  mret (os_Stat d p).

(** [vcs.Open]: on success a new repository object. *)
Definition do_vcs_Open (vcsType : string) (dir : path) : M (result handle) :=
  _ ← emit (EvVcsOpen vcsType dir);
  d ← get_disk;
  match vcs_Open d vcsType dir with
  | Some err => mret (inr err)
  | None => a ← alloc; mret (inl (Handle a vcsType dir))
  end.

Definition do_MkdirAll (p : path) : M (option error) :=
  _ ← emit (EvMkdirAll p);
  d ← get_disk;
  match os_MkdirAll d p with
  | inr err => mret (Some err)
  | inl d' => _ ← put_disk d'; mret None
  end.

Definition do_TempDir (dir : path) (pfx : string) : M (result path) :=
  _ ← emit (EvTempDir dir pfx);
  d ← get_disk;
  match ioutil_TempDir d dir pfx with
  | inr err => mret (inr err)
  | inl (name, d') => _ ← put_disk d'; mret (inl name)
  end.

Definition do_vcs_Clone (info : CloneInfo) (dir : path) : M (option error) :=
  d ← get_disk;
  let '(d', err) := vcs_Clone d info dir in
  _ ← emit (EvVcsClone dir err);
  _ ← put_disk d';
  mret err.

Definition do_Rename (old new : path) : M (option error) :=
  _ ← emit (EvRename old new);
  d ← get_disk;
  match os_Rename d old new with
  | inr err => mret (Some err)
  | inl d' => _ ← put_disk d'; mret None
  end.

Definition do_RemoveAll (p : path) : M unit :=
  _ ← emit (EvRemoveAll p);
  d ← get_disk;
  put_disk (os_RemoveAll d p).

(** ** [service.go] *)

(** [func (c *Config) CloneDir]: the error it returns is always [nil]. *)
Definition CloneDir (s : service) (repoPath : path) : path * option error :=
  (filepath_Join (StorageDir s) (EncodeRepositoryPath repoPath), None).

(** [func NewService], for a non-nil [Config]. *)
Definition NewService (storageDir : path) : service :=
  Service storageDir ∅ ∅ ∅.

(** The first critical section of [open]: [s.repos[key]]. *)
Definition open_cached (key : path) : M (option handle) :=
  s ← get_svc;
  mret (repos s !! key).

(** The second critical section of [open]: count the user, keep the handle
    that is already there, else publish ours. *)
Definition open_publish (key : path) (repo : handle) : M handle :=
  s ← get_svc;
  let s1 := set_repoUsers (<[key := int_wrap (users s key + 1)]>) s in
  match repos s1 !! key with
  | Some repo' => _ ← put_svc s1; mret repo'
  | None => _ ← put_svc (set_repos (<[key := repo]>) s1); mret repo
  end.

(** [func (s *service) open] *)
Definition open (cloneDir : path) : task (result handle) :=
  let key := cloneDir in
  t ← atomic (do_vcsTypeFromDir cloneDir);
  match t with
  | inr err => mret (inr err)
  | inl vcsType =>
      c ← atomic (open_cached key);
      match c with
      | Some repo => mret (inl repo)
      | None =>
          fi ← atomic (do_Stat cloneDir);
          match fi with
          | inr err => mret (inr err)
          | inl File => mret (inr (NotADirectory cloneDir))
          | inl Dir =>
              r ← atomic (do_vcs_Open vcsType cloneDir);
              match r with
              | inr err => mret (inr err)
              | inl repo =>
                  repo' ← atomic (open_publish key repo);
                  mret (inl repo')
              end
          end
      end
  end.

(** [func (s *service) Open].  Reading the configuration is a step of its
    own; [StorageDir] never changes. *)
Definition Open (repoPath : path) : task (result handle) :=
  s ← atomic get_svc;
  match CloneDir s repoPath with
  | (_, Some err) => mret (inr err)
  | (cloneDir, None) => open cloneDir
  end.

(** What [Close] does to the maps once it holds [repoMuMu]. *)
Definition close_key (key : path) (s : service) : service :=
  let s1 := set_repoUsers (<[key := int_wrap (users s key - 1)]>) s in
  if bool_decide (users s1 key = 0)
  then set_repos (delete key) (set_repoUsers (delete key) s1)
  else s1.

(** [func (s *service) Close]: [inr err] is [panic(err)]. *)
Definition Close (repoPath : path) : task (result unit) :=
  s ← atomic get_svc;
  match CloneDir s repoPath with
  | (_, Some err) => mret (inr err)
  | (cloneDir, None) =>
      atomic (s ← get_svc; _ ← put_svc (close_key cloneDir s); mret (inl tt))
  end.

(** [func (s *service) Mutex], all of it under [repoMuMu]. *)
Definition Mutex (key : path) : M nat :=
  s ← get_svc;
  match repoMu s !! key with
  | Some mu => mret mu
  | None =>
      mu ← alloc;
      _ ← put_svc (set_repoMu (<[key := mu]>) s);
      mret mu
  end.

(** [Clone] from [defer os.RemoveAll(cloneTmpDir)] to its [return]s. *)
Definition Clone_into (cloneDir cloneTmpDir : path) (info : CloneInfo) : M (result handle) :=
  e ← do_vcs_Clone info cloneTmpDir;
  match e with
  | Some err => mret (inr err)
  | None =>
      e ← do_Rename cloneTmpDir cloneDir;
      match e with
      | Some err => mret (inr err)
      | None => run (open cloneDir)
      end
  end.

(** [Clone] from [defer mu.Unlock()] to its [return]s; the deferred
    [os.RemoveAll] runs once [Clone_into] has returned. *)
Definition Clone_locked (cloneDir : path) (info : CloneInfo) : M (result handle) :=
  r ← run (open cloneDir);
  if negb (IsNotExist (err_of r)) then mret r
  else
    let parentDir := filepath_Dir cloneDir in
    e ← do_MkdirAll parentDir;
    match e with
    | Some err => mret (inr err)
    | None =>
        t ← do_TempDir parentDir ("_tmp_" +:+ filepath_Base cloneDir +:+ "-");
        match t with
        | inr err => mret (inr err)
        | inl cloneTmpDir =>
            r ← Clone_into cloneDir cloneTmpDir info;
            _ ← do_RemoveAll cloneTmpDir;
            mret r
        end
    end.

(** [func (s *service) Clone], run without interference: the lock is free
    when it is asked for.  The first [open] is handed [repoPath], as the
    source has it.  Logging and timing are left out. *)
Definition Clone (repoPath : path) (info : CloneInfo) : M (result handle) :=
  s ← get_svc;
  match CloneDir s repoPath with
  | (_, Some err) => mret (inr err)
  | (cloneDir, None) =>
      r ← run (open repoPath);
      if negb (IsNotExist (err_of r)) then mret r
      else
        mu ← Mutex cloneDir;
        _ ← emit (EvLock mu);
        r ← Clone_locked cloneDir info;
        _ ← emit (EvUnlock mu);
        mret r
  end.

(** The calls a client can make, and a history of them run one after the
    other. *)
Inductive call :=
  | CallOpen (repoPath : path)
  | CallClose (repoPath : path)
  | CallClone (repoPath : path) (info : CloneInfo)
  | CallMutex (key : path).

Definition run_call (c : call) (w : world) : world :=
  match c with
  | CallOpen repoPath => (run (Open repoPath) w).2
  | CallClose repoPath => (run (Close repoPath) w).2
  | CallClone repoPath info => (Clone repoPath info w).2
  | CallMutex key => (Mutex key w).2
  end.

Definition run_calls (cs : list call) (w : world) : world :=
  foldl (λ w c, run_call c w) w cs.

End registry.

(** ** A reference backend *)

(** Modelled from the spec: [vcsTypeFromDir] is not among the sources.
    Detection inspects the directory structure: a bare git clone has a
    [HEAD] file, a mercurial one a [.hg] directory; when no backend claims
    the directory it fails, with the system's [ENOENT] when the directory
    is not there at all. *)
Definition spec_vcsTypeFromDir (d : fs) (dir : path) : result string :=
  if bool_decide (d !! (dir ++ ["HEAD"]) = Some File) then inl "git"
  else if bool_decide (d !! (dir ++ [".hg"]) = Some Dir) then inl "hg"
  else if bool_decide (d !! dir = None) then inr (PathError "open" dir ENOENT)
  else inr (Errorf "unrecognized repository").

(** [vcs.Open] with the git opener of [gitcmd/repo.go] registered:
    [gitcmd.Open] never fails. *)
Definition spec_vcs_Open (d : fs) (vcsType : string) (dir : path) : option error :=
  if bool_decide (vcsType = "git") then None
  else Some (Errorf "no opener for this VCS type").

(** [vcs.Clone] as [gitcmd.Clone] runs it: [git clone --bare --mirror]
    leaves a bare clone, or fails (here: on an empty URL) with whatever it
    had written so far left behind. *)
Definition spec_vcs_Clone (d : fs) (info : CloneInfo) (dir : path) : fs * option error :=
  if bool_decide (CloneURL info = "")
  then (<[dir ++ ["objects"] := Dir]> d, Some (Errorf "exec `git clone` failed"))
  else (<[dir ++ ["HEAD"] := File]> (<[dir ++ ["objects"] := Dir]> (<[dir := Dir]> d)), None).

(** Modelled from the spec: [EncodeRepositoryPath] is not among the
    sources.  The encoder is a pure function to a relative path; here it
    leaves a cleaned repository path as it is. *)
Definition spec_EncodeRepositoryPath (repoPath : path) : path := repoPath.

Definition spec_backend : Backend := {|
  EncodeRepositoryPath := spec_EncodeRepositoryPath;
  vcsTypeFromDir := spec_vcsTypeFromDir;
  vcs_Open := spec_vcs_Open;
  vcs_Clone := spec_vcs_Clone;
  temp_suffix := λ _ _ _, "482910";
|}.



(** A process just started: [NewService] over a given disk. *)
Definition boot (storageDir : path) (d : fs) : world :=
  World (NewService storageDir) d 0 [].

(** ** Reading traces and worlds *)

Definition add_events (w : world) (evs : list event) : world :=
  World (svc w) (disk w) (heap w) (trace w ++ evs).

(** The events a computation added to the trace of [w]. *)
Definition events_since (w w' : world) : list event :=
  drop (length (trace w)) (trace w').

(** The invocations of the Clone Executor in a trace: where it was told to
    clone to, and how it ended. *)
Definition executor_calls (evs : list event) : list (path * option error) :=
  omap (λ e, match e with EvVcsClone dir err => Some (dir, err) | _ => None end) evs.

(** The Clone Executor writes below the directory it is given and nowhere
    else. *)
Definition executor_confined `{B : Backend} : Prop :=
  ∀ d info dir p, ¬ dir `prefix_of` p → (vcs_Clone d info dir).1 !! p = d !! p.

(** The ways a call of [open] run on its own can end: detection fails; the
    handle is in [repos]; [os.Stat] fails; the path is no directory;
    [vcs.Open] fails; a new handle is published. *)
Inductive open_outcome `{B : Backend} (key : path) (w : world) :
    result handle → world → Prop :=
  | OpenDetectFails err :
      vcsTypeFromDir (disk w) key = inr err →
      open_outcome key w (inr err) (add_events w [EvDetect key])
  | OpenHit vcsType repo :
      vcsTypeFromDir (disk w) key = inl vcsType →
      repos (svc w) !! key = Some repo →
      open_outcome key w (inl repo) (add_events w [EvDetect key])
  | OpenAbsent vcsType :
      vcsTypeFromDir (disk w) key = inl vcsType →
      repos (svc w) !! key = None →
      disk w !! key = None →
      open_outcome key w (inr (PathError "stat" key ENOENT))
        (add_events w [EvDetect key; EvStat key])
  | OpenNotDir vcsType :
      vcsTypeFromDir (disk w) key = inl vcsType →
      repos (svc w) !! key = None →
      disk w !! key = Some File →
      open_outcome key w (inr (NotADirectory key))
        (add_events w [EvDetect key; EvStat key])
  | OpenBackendFails vcsType err :
      vcsTypeFromDir (disk w) key = inl vcsType →
      repos (svc w) !! key = None →
      disk w !! key = Some Dir →
      vcs_Open (disk w) vcsType key = Some err →
      open_outcome key w (inr err)
        (add_events w [EvDetect key; EvStat key; EvVcsOpen vcsType key])
  | OpenMiss vcsType :
      vcsTypeFromDir (disk w) key = inl vcsType →
      repos (svc w) !! key = None →
      disk w !! key = Some Dir →
      vcs_Open (disk w) vcsType key = None →
      open_outcome key w (inl (Handle (heap w) vcsType key))
        (World (set_repos (<[key := Handle (heap w) vcsType key]>)
                  (set_repoUsers (<[key := int_wrap (users (svc w) key + 1)]>) (svc w)))
               (disk w) (S (heap w))
               (trace w ++ [EvDetect key; EvStat key; EvVcsOpen vcsType key])).

(** ** Sample processes *)

Definition good_info : CloneInfo :=
  {| VCS := "git"; CloneURL := "https://example.org/x/y.git"; RemoteOpts := "" |}.

(** A clone request whose executor fails. *)
Definition bad_info : CloneInfo :=
  {| VCS := "git"; CloneURL := ""; RemoteOpts := "" |}.

(** Nothing cloned yet, storage under [store]. *)
Definition w_empty : world := boot ["store"] ∅.

(** The repository [x/y] already cloned to [store/x/y]. *)
Definition disk_cloned : fs :=
  {[ ["store"] := Dir; ["store"; "x"] := Dir; ["store"; "x"; "y"] := Dir;
     ["store"; "x"; "y"; "HEAD"] := File; ["store"; "x"; "y"; "objects"] := Dir ]}.

Definition w_cloned : world := boot ["store"] disk_cloned.

(** The repository [x/y] lying in the working directory, nothing under
    [store]. *)
Definition disk_stray : fs :=
  {[ ["x"] := Dir; ["x"; "y"] := Dir; ["x"; "y"; "HEAD"] := File ]}.

Definition w_stray : world := boot ["store"] disk_stray.

(** [w_cloned] after one [Open] of [x/y]. *)
Definition w_opened : world := (run (Open (B := spec_backend) ["x"; "y"]) w_cloned).2.

(** The invariant of the registry state as the spec words it: a key is in
    [handles] iff its refcount is present and positive. *)
Definition handles_iff_counted (s : service) : Prop :=
  ∀ key, is_Some (repos s !! key) ↔ ∃ n, repoUsers s !! key = Some n ∧ 0 < n.

(** [x/y] open with three holders on record. *)
Definition w_three : world :=
  World (Service ["store"] ∅
           {[ ["store"; "x"; "y"] := Handle 0 "git" ["store"; "x"; "y"] ]}
           {[ ["store"; "x"; "y"] := 3 ]})
        disk_cloned 1 [].

(** ** How the maps change

    Outside [Close], the registry only ever adds: [open] publishes a handle
    for a key that has none and counts it, [Mutex] adds a lock for a key
    that has none. *)
Inductive svc_grow : service → service → Prop :=
  | grow_publish s key repo :
      repos s !! key = None →
      svc_grow s (set_repos (<[key := repo]>)
                    (set_repoUsers (<[key := int_wrap (users s key + 1)]>) s))
  | grow_mutex s key mu :
      repoMu s !! key = None →
      svc_grow s (set_repoMu (<[key := mu]>) s).

Definition grows {A} (m : M A) : Prop :=
  ∀ w, rtc svc_grow (svc w) (svc (m w).2).

(** A count that a call found at or below zero and has not lost: it is on
    record, and above [0] only with a handle in [repos]. *)
Definition kept_count (key : path) (lo : Z) (s : service) : Prop :=
  ∃ c, repoUsers s !! key = Some c ∧ lo ≤ c ∧
       (c ≤ 0 ∨ is_Some (repos s !! key)).

(** What holds of [w_stray] however often [Clone] is called for [x/y]. *)
Definition stray_inv (w : world) : Prop :=
  StorageDir (svc w) = ["store"] ∧ disk w = disk_stray ∧
  executor_calls (trace w) = [] ∧
  ((repos (svc w) !! ["x"; "y"] = None ∧ heap w = 0%nat) ∨
   repos (svc w) !! ["x"; "y"] = Some (Handle 0 "git" ["x"; "y"])).

(** ** Goroutines

    What the atomic steps of a task do, whatever runs between them: from a
    world in which [I] holds every step leads to one in which [I] holds,
    the two worlds are related by [G], and a result the step ends the task
    with satisfies [Q] there. *)
Fixpoint task_sound {A} (I : world → Prop) (G : world → world → Prop)
    (Q : A → world → Prop) (t : task A) : Prop :=
  match t with
  | Done _ => True
  | Atomic m k =>
      ∀ w, I w →
        I (m w).2 ∧ G w (m w).2 ∧
        (∀ a, k (m w).1 = Done a → Q a (m w).2) ∧
        task_sound I G Q (k (m w).1)
  end.

(** A goroutine of the pool: its steps are sound, and if it has returned,
    what it returned is good in the present world. *)
Definition settled {A} (I : world → Prop) (G : world → world → Prop)
    (Q : A → world → Prop) (w : world) (t : task A) : Prop :=
  task_sound I G Q t ∧ ∀ a, t = Done a → Q a w.

(** The body of a goroutine that makes one call and drops what it gets.
    [Mutex] runs under [repoMuMu] from its first line to its last. *)
Inductive gcall :=
  | GoOpen (repoPath : path)
  | GoClose (repoPath : path)
  | GoMutex (key : path).

Definition go `{B : Backend} (g : gcall) : task unit :=
  match g with
  | GoOpen repoPath => _ ← Open repoPath; mret tt
  | GoClose repoPath => _ ← Close repoPath; mret tt
  | GoMutex key => _ ← atomic (Mutex key); mret tt
  end.

(** The shape of the three maps: the lock objects are allocated, no two
    keys share one, and a handle kept under a key is a repository opened at
    that very directory and has a count on record. *)
Definition registry_wf (w : world) : Prop :=
  (∀ k mu, repoMu (svc w) !! k = Some mu → (mu < heap w)%nat) ∧
  (∀ k1 k2 mu, repoMu (svc w) !! k1 = Some mu →
     repoMu (svc w) !! k2 = Some mu → k1 = k2) ∧
  (∀ k h, repos (svc w) !! k = Some h →
     h_dir h = k ∧ is_Some (repoUsers (svc w) !! k)).

(** What no call but [Clone] touches: the disk and the configuration; and
    no call takes a lock away. *)
Definition registry_frame (w w' : world) : Prop :=
  disk w' = disk w ∧ StorageDir (svc w') = StorageDir (svc w) ∧
  (∀ k mu, repoMu (svc w) !! k = Some mu → repoMu (svc w') !! k = Some mu).

(** Between goroutines that only open: the handle kept under [key] stays,
    and a handle returned is the one kept under [key]. *)
Definition handle_stays (key : path) (w w' : world) : Prop :=
  ∀ h, repos (svc w) !! key = Some h → repos (svc w') !! key = Some h.

Definition returns_published (key : path) (r : result handle) (w : world) : Prop :=
  ∀ h, r = inl h → repos (svc w) !! key = Some h.

(** A computation that keeps [I]. *)
Definition keeps {A} (I : world → Prop) (m : M A) : Prop :=
  ∀ w, I w → I (m w).2.

(** Counts as calls that do not overlap leave them: none below [lo], none
    beyond a Go [int], and one above [0] only with a handle in [repos]. *)
Definition counts_backed (lo : Z) (s : service) : Prop :=
  ∀ k c, repoUsers s !! k = Some c →
    lo ≤ c < 2 ^ 63 ∧ (0 < c → is_Some (repos s !! k)).

(** The events of taking and releasing a per-directory lock, and the
    events of the calls that only read the disk. *)
Definition is_lock_event (e : event) : bool :=
  match e with EvLock _ | EvUnlock _ => true | _ => false end.

Definition is_read_event (e : event) : bool :=
  match e with EvDetect _ | EvStat _ | EvVcsOpen _ _ => true | _ => false end.

(** A computation all of whose events satisfy [P]. *)
Definition emits {A} (P : event → Prop) (m : M A) : Prop :=
  ∀ w, ∃ evs, trace (m w).2 = trace w ++ evs ∧ Forall P evs.

(** ** Tree entries ([vcsclient.TreeEntry], [server.newTreeEntry])

    [os.FileMode] is a [uint32]; its high bits say what kind of file it
    is.  The constants are those of package [os]; [ModeType] is the mask
    of the Go releases the code was written for. *)
Definition ModeDir : Z := Z.shiftl 1 31.
Definition ModeSymlink : Z := Z.shiftl 1 27.
Definition ModeDevice : Z := Z.shiftl 1 26.
Definition ModeNamedPipe : Z := Z.shiftl 1 25.
Definition ModeSocket : Z := Z.shiftl 1 24.
Definition ModeType : Z :=
  Z.lor ModeDir (Z.lor ModeSymlink (Z.lor ModeNamedPipe (Z.lor ModeSocket ModeDevice))).
Definition ModePerm : Z := 511.

(** [FileMode.IsDir] and [FileMode.IsRegular]. *)
Definition IsDir (m : Z) : bool := negb (Z.land m ModeDir =? 0).
Definition IsRegular (m : Z) : bool := Z.land m ModeType =? 0.

(** An [os.FileInfo], as its methods [Name], [Size], [Mode] and [ModTime]
    show it; [type fileInfo struct] of [vcsclient] is one.  A [time.Time]
    is kept as an instant. *)
Record FileInfo := {
  fi_name : string;
  fi_size : Z;
  fi_mode : Z;
  fi_mtime : Z;
}.

(** [type TreeEntryType string] and its three constants. *)
Definition FileEntry : string := "file".
Definition DirEntry : string := "dir".
Definition SymlinkEntry : string := "symlink".

(** [type TreeEntry struct]; [None] is a [nil] slice. *)
#[warnings="-register-all"]
Inductive TreeEntry := {
  te_Name : string;
  te_Type : string;
  te_Size : Z;
  te_ModTime : Z;
  te_Contents : option string;
  te_Entries : option (list TreeEntry);
}.

(** [func (e *TreeEntry) Stat]; the error it returns is always [nil].
    [int64(e.Size)] is the identity on a 64-bit target. *)
Definition TreeEntry_Stat (e : TreeEntry) : FileInfo :=
  let mode := 0 in
  let mode :=
    if String.eqb (te_Type e) DirEntry then Z.lor mode ModeDir
    else if String.eqb (te_Type e) SymlinkEntry then Z.lor mode ModeSymlink
    else mode in
  {| fi_name := te_Name e; fi_mode := mode; fi_size := te_Size e;
     fi_mtime := te_ModTime e |}.

(** [func newTreeEntry]: [int(fi.Size())] on a 64-bit target; a mode that
    is none of the three kinds leaves [Type] at its zero value. *)
Definition newTreeEntry (fi : FileInfo) : TreeEntry :=
  {| te_Name := fi_name fi;
     te_Type :=
       if IsDir (fi_mode fi) then DirEntry
       else if IsRegular (fi_mode fi) then FileEntry
       else if negb (Z.land (fi_mode fi) ModeSymlink =? 0) then SymlinkEntry
       else "";
     te_Size := int_wrap (fi_size fi);
     te_ModTime := fi_mtime fi;
     te_Contents := None;
     te_Entries := None |}.

(** ** The git backend ([gitcmd/repo.go])

    How a run of [git] ends: [cmd.CombinedOutput] gives the output and,
    when the command did not exit with status 0, an [*exec.ExitError] or
    some other error. *)
Inductive exec_error :=
  | ExitError (status : Z)
  | StartError (msg : string).

(** The errors of package [vcs] that callers compare against with [==],
    and the errors [gitcmd] makes on the spot with [errors.New] and
    [fmt.Errorf]; one of the latter is never [==] to one of the former. *)
Inductive vcs_error :=
  | ErrRevisionNotFound
  | ErrBranchNotFound
  | ErrTagNotFound
  | ErrorsNew (msg : string)
  | ExecFailed (cmd : string) (err : exec_error) (out : string).

Global Instance exec_error_eq_dec : EqDecision exec_error.
Proof. solve_decision. Defined.

Global Instance vcs_error_eq_dec : EqDecision vcs_error.
Proof. solve_decision. Defined.

(** What [gitcmd] runs on: [git] started in a directory with arguments,
    and [bytes.TrimSpace] of the standard library. *)
Class Git := {
  git_run : string → list string → string * option exec_error;
  bytes_TrimSpace : string → string;
}.

(** The byte ['\n']. *)
Definition newline : Ascii.ascii :=
  Ascii.Ascii false true false true false false false false.

(** [bytes.Contains]. *)
Fixpoint bytes_Contains (s sub : string) : bool :=
  String.prefix sub s ||
  match s with
  | EmptyString => false
  | String _ s' => bytes_Contains s' sub
  end.

(** [bytes.TrimSuffix]. *)
Definition bytes_TrimSuffix (s suffix : string) : string :=
  let n := String.length s in
  let k := String.length suffix in
  if (k <=? n)%nat && String.eqb (String.substring (n - k) k s) suffix
  then String.substring 0 (n - k) s
  else s.

(** [bytes.Split] with a separator of one byte: the pieces between the
    separators, one piece more than there are separators. *)
Fixpoint bytes_Split (s : string) (sep : Ascii.ascii) : list string :=
  match s with
  | EmptyString => [EmptyString]
  | String c s' =>
      if Ascii.eqb c sep then EmptyString :: bytes_Split s' sep
      else
        match bytes_Split s' sep with
        | piece :: pieces => String c piece :: pieces
        | [] => [String c EmptyString]
        end
  end.

(** [bytes.Compare p[i] p[j] < 0] is the order [sort.Sort] uses on
    [byteSlices]; [String.leb] is its reflexive closure.  Whatever
    algorithm sorts, the result is the one ordered rearrangement. *)
Definition bytes_le (a b : string) : Prop := String.leb a b = true.

Global Instance bytes_le_dec : RelDecision bytes_le.
Proof. intros a b. unfold bytes_le. apply _. Defined.

Definition sort_byteSlices (lines : list string) : list string :=
  merge_sort bytes_le lines.

Section gitcmd.
Context `{G : Git}.

(** [func checkSpecArgSafety] *)
Definition checkSpecArgSafety (spec : string) : option vcs_error :=
  if String.prefix "-" spec
  then Some (ErrorsNew "invalid git revision spec (begins with '-')")
  else None.

(** [func (r *Repository) ResolveRevision], [r.Dir] being [dir]. *)
Definition ResolveRevision (dir spec : string) : string * option vcs_error :=
  match checkSpecArgSafety spec with
  | Some err => (EmptyString, Some err)
  | None =>
      let '(out, err) := git_run dir ["rev-parse"; spec] in
      match err with
      | Some e =>
          if bytes_Contains out "unknown revision"
          then (EmptyString, Some ErrRevisionNotFound)
          else (EmptyString, Some (ExecFailed "git rev-parse" e out))
      | None => (bytes_TrimSpace out, None)
      end
  end.

(** [func (r *Repository) ResolveBranch] *)
Definition ResolveBranch (dir name : string) : string * option vcs_error :=
  let '(commitID, err) := ResolveRevision dir name in
  if decide (err = Some ErrRevisionNotFound)
  then (EmptyString, Some ErrBranchNotFound)
  else (commitID, None).

(** [func (r *Repository) ResolveTag] *)
Definition ResolveTag (dir name : string) : string * option vcs_error :=
  let '(commitID, err) := ResolveRevision dir name in
  if decide (err = Some ErrRevisionNotFound)
  then (EmptyString, Some ErrTagNotFound)
  else (commitID, None).

(** [func exitStatus] *)
Definition exitStatus (err : option exec_error) : Z :=
  match err with
  | Some (ExitError status) => status
  | _ => 0
  end.

(** The loop of [showRef] over the sorted lines. *)
Fixpoint showRef_lines (lines : list string) : (list (string * string)) + vcs_error :=
  match lines with
  | [] => inl []
  | line :: lines' =>
      if (String.length line <=? 41)%nat
      then inr (ErrorsNew "unexpectedly short (<=41 bytes) line in `git show-ref ...` output")
      else
        let id := String.substring 0 40 line in
        let name := String.substring 41 (String.length line - 41) line in
        match showRef_lines lines' with
        | inl refs => inl ((id, name) :: refs)
        | inr err => inr err
        end
  end.

(** [func (r *Repository) showRef]; [None] is the [nil] slice. *)
Definition showRef (dir arg : string) : option (list (string * string)) * option vcs_error :=
  let '(out, err) := git_run dir ["show-ref"; arg] in
  match err with
  | Some e =>
      if (exitStatus err =? 1) && (String.length out =? 0)%nat
      then (None, None)
      else (None, Some (ExecFailed "git show-ref" e out))
  | None =>
      let out := bytes_TrimSuffix out (String newline EmptyString) in
      let lines := sort_byteSlices (bytes_Split out newline) in
      match showRef_lines lines with
      | inl refs => (Some refs, None)
      | inr err => (None, Some err)
      end
  end.

End gitcmd.

(** A [git] that knows one repository with one branch. *)
Definition sample_git : Git := {|
  git_run := λ dir args,
    if decide (args = ["rev-parse"; "master"])
    then ("4f2c1e0a9b8d7c6e5f4a3b2c1d0e9f8a7b6c5d4e" +:+ String newline EmptyString, None)
    else if decide (args = ["show-ref"; "--heads"])
    then ("4f2c1e0a9b8d7c6e5f4a3b2c1d0e9f8a7b6c5d4e refs/heads/master"
            +:+ String newline EmptyString, None)
    else ("fatal: ambiguous argument: unknown revision or path not in the working tree.",
          Some (ExitError 128));
  bytes_TrimSpace := λ s, bytes_TrimSuffix s (String newline EmptyString);
|}.

(** A goroutine that asks for the lock of [key] and keeps it together
    with the key it asked for. *)
Definition go_Mutex `{B : Backend} (key : path) : task (path * nat) :=
  mu ← atomic (Mutex key); mret (key, mu).

(** The lock a goroutine was given for a key is the one [repoMu] holds. *)
Definition lock_on_record (r : path * nat) (w : world) : Prop :=
  repoMu (svc w) !! r.1 = Some r.2.

(** ** [isLowercaseLetter]

    Go reads a string rune by rune.  [utf8.DecodeRuneInString], which
    gives the first rune of a string and the number of bytes it takes, is
    the standard library's. *)
Class Utf8 := {
  DecodeRuneInString : string → Z * nat;
}.

(** The value of a byte. *)
Definition byte_val (c : Ascii.ascii) : Z := Z.of_N (Ascii.N_of_ascii c).

(** What is used of the decoder: a byte below [0x80] is a rune of its
    own, and the rune read at any other byte, [utf8.RuneError] included,
    is not below [0x80]. *)
Definition utf8_laws `{U : Utf8} : Prop :=
  ∀ c s,
    (byte_val c < 128 → DecodeRuneInString (String c s) = (byte_val c, 1%nat)) ∧
    (128 ≤ byte_val c → 128 ≤ (DecodeRuneInString (String c s)).1).

Section index_func.
Context `{U : Utf8}.

(** The loop [for i, r := range s] of [strings.IndexFunc]: [i] is the
    index of the first byte of what is left of the string, [skip] the
    number of bytes of the rune just read that are still to be passed. *)
Fixpoint indexFunc (i : Z) (skip : nat) (s : string) (f : Z → bool) : Z :=
  match s with
  | EmptyString => -1
  | String _ s' =>
      match skip with
      | S skip' => indexFunc (i + 1) skip' s' f
      | O =>
          let '(r, wid) := DecodeRuneInString s in
          if f r then i else indexFunc (i + 1) (wid - 1) s' f
      end
  end.

(** [strings.IndexFunc] *)
Definition strings_IndexFunc (s : string) (f : Z → bool) : Z := indexFunc 0 0 s f.

(** [func isLowercaseLetter]; ['a'] is 97 and ['z'] is 122. *)
Definition isLowercaseLetter (s : string) : bool :=
  strings_IndexFunc s (λ c, negb ((97 <=? c) && (c <=? 122))) =? -1.

End index_func.

(** A decoder for strings of ASCII: any other byte reads as
    [utf8.RuneError], one byte wide. *)
Definition ascii_decoder : Utf8 := {|
  DecodeRuneInString := λ s,
    match s with
    | EmptyString => (65533, 0%nat)
    | String c _ => if byte_val c <? 128 then (byte_val c, 1%nat) else (65533, 1%nat)
    end;
|}.

(** ** The file names of the benchmarks

    [func benchFilename].  [%] is Go's remainder, which has the sign of
    the dividend; [fmt.Sprintf] with [%d] prints a number in decimal;
    [None] is [panic("unreachable")]. *)
Definition benchFilename (i : Z) : option string :=
  match Z.rem i 4 with
  | 0 => Some ("file" +:+ pretty i)
  | 1 => Some ("dir" +:+ pretty (Z.rem i 10) +:+ "/file" +:+ pretty i)
  | 2 => Some ("dir" +:+ pretty (Z.rem i 7) +:+ "/subdir" +:+ pretty (Z.rem i 3)
                 +:+ "/file" +:+ pretty i)
  | 3 => Some ("file" +:+ pretty (Z.rem i 2))
  | _ => None
  end.

(** * Properties *)

Ltac unfold_calls :=
  cbv [Open Close open Clone Clone_locked Clone_into Mutex open_cached open_publish
       do_vcsTypeFromDir do_Stat do_vcs_Open do_MkdirAll do_TempDir do_vcs_Clone
       do_Rename do_RemoveAll emit get_disk put_disk get_svc put_svc alloc
       atomic mbind mret task_mbind task_ret task_bind M_bind M_ret run CloneDir
       add_events].

Section disk_lemmas.

Lemma string_length_app (s1 s2 : string) :
  String.length (s1 +:+ s2) = (String.length s1 + String.length s2)%nat.
Proof. induction s1 as [|c s1 IH]; simpl; [done | by rewrite IH]. Qed.

Lemma tmp_name_fresh (base sfx : string) :
  ("_tmp_" +:+ base +:+ "-") +:+ sfx ≠ base.
Proof.
  intros Heq. apply (f_equal String.length) in Heq.
  rewrite !string_length_app in Heq. simpl in Heq. lia.
Qed.

Lemma lookup_RemoveAll (d : fs) (p q : path) :
  os_RemoveAll d p !! q = if decide (p `prefix_of` q) then None else d !! q.
Proof.
  unfold os_RemoveAll. rewrite map_lookup_filter. simpl.
  destruct (d !! q) as [n|] eqn:Hq; simpl.
  - case_decide; [by rewrite option_guard_False by tauto|].
    by rewrite option_guard_True.
  - by case_decide.
Qed.

Lemma mkdir_all_lookup (below above : path) (d d' : fs) (q : path) :
  mkdir_all above below d = inl d' →
  ¬ q `prefix_of` above ++ below →
  d' !! q = d !! q.
Proof.
  revert above d. induction below as [|c below IH]; intros above d Hmk Hq; simpl in Hmk.
  - rewrite app_nil_r in Hq.
    assert (above ≠ q) by (intros ->; by apply Hq).
    destruct (d !! above) as [[]|]; simplify_eq; by rewrite lookup_insert_ne.
  - assert (above ≠ q).
    { intros ->. apply Hq. by apply prefix_app_r. }
    assert (mkdir_all (above ++ [c]) below (<[above:=Dir]> d) = inl d') as Hrec
      by (destruct (d !! above) as [[]|]; simplify_eq; done).
    apply IH in Hrec; [|by rewrite <- app_assoc].
    by rewrite Hrec, lookup_insert_ne.
Qed.

(** A clone directory and the temporary directory next to it have no path
    in common. *)
Lemma sibling_disjoint (cloneDir : path) (name : string) (p : path) :
  cloneDir ≠ [] →
  name ≠ filepath_Base cloneDir →
  filepath_Dir cloneDir ++ [name] `prefix_of` p →
  cloneDir `prefix_of` p →
  False.
Proof.
  intros Hne Hname Ht Hc.
  destruct (exists_last Hne) as (dir & base & ->).
  unfold filepath_Dir, filepath_Base in *.
  rewrite removelast_last in Ht. rewrite last_last in Hname.
  destruct (prefix_weak_total _ _ _ Ht Hc) as [Hp|Hp].
  - apply prefix_length_eq in Hp as Heq; [|rewrite !length_app; simpl; lia].
    apply app_inj_tail in Heq as [_ Heq]. by rewrite Heq in Hname.
  - apply prefix_length_eq in Hp as Heq; [|rewrite !length_app; simpl; lia].
    apply app_inj_tail in Heq as [_ Heq]. by rewrite Heq in Hname.
Qed.

Lemma parent_not_below (cloneDir p : path) :
  cloneDir ≠ [] →
  cloneDir `prefix_of` p →
  ¬ p `prefix_of` filepath_Dir cloneDir.
Proof.
  intros Hne Hc Hp.
  destruct (exists_last Hne) as (dir & base & ->).
  unfold filepath_Dir in Hp. rewrite removelast_last in Hp.
  apply prefix_length in Hc, Hp. rewrite length_app in Hc. simpl in Hc. lia.
Qed.

End disk_lemmas.

Section open_lemmas.
Context `{B : Backend}.

Lemma run_open_hit key w ty h :
  vcsTypeFromDir (disk w) key = inl ty →
  repos (svc w) !! key = Some h →
  run (open key) w = (inl h, add_events w [EvDetect key]).
Proof.
  intros Hty Hh. unfold_calls. simpl. rewrite Hty. simpl. rewrite Hh. done.
Qed.

Lemma run_open_detect_fails key w err :
  vcsTypeFromDir (disk w) key = inr err →
  run (open key) w = (inr err, add_events w [EvDetect key]).
Proof. intros Hty. unfold_calls. simpl. by rewrite Hty. Qed.

Lemma run_open_absent key w ty :
  vcsTypeFromDir (disk w) key = inl ty →
  repos (svc w) !! key = None →
  disk w !! key = None →
  run (open key) w =
    (inr (PathError "stat" key ENOENT), add_events w [EvDetect key; EvStat key]).
Proof.
  intros Hty Hh Hd. unfold_calls. simpl. rewrite Hty. simpl. rewrite Hh. simpl.
  unfold os_Stat. rewrite Hd. simpl. by rewrite <- app_assoc.
Qed.

Lemma run_open_file key w ty :
  vcsTypeFromDir (disk w) key = inl ty →
  repos (svc w) !! key = None →
  disk w !! key = Some File →
  run (open key) w =
    (inr (NotADirectory key), add_events w [EvDetect key; EvStat key]).
Proof.
  intros Hty Hh Hd. unfold_calls. simpl. rewrite Hty. simpl. rewrite Hh. simpl.
  unfold os_Stat. rewrite Hd. simpl. by rewrite <- app_assoc.
Qed.

Lemma run_open_backend_fails key w ty err :
  vcsTypeFromDir (disk w) key = inl ty →
  repos (svc w) !! key = None →
  disk w !! key = Some Dir →
  vcs_Open (disk w) ty key = Some err →
  run (open key) w =
    (inr err, add_events w [EvDetect key; EvStat key; EvVcsOpen ty key]).
Proof.
  intros Hty Hh Hd Ho. unfold_calls. simpl. rewrite Hty. simpl. rewrite Hh. simpl.
  unfold os_Stat. rewrite Hd. simpl. rewrite Ho. simpl. by rewrite <- !app_assoc.
Qed.

Lemma run_open_miss key w ty :
  vcsTypeFromDir (disk w) key = inl ty →
  repos (svc w) !! key = None →
  disk w !! key = Some Dir →
  vcs_Open (disk w) ty key = None →
  run (open key) w =
    (inl (Handle (heap w) ty key),
     World (set_repos (<[key := Handle (heap w) ty key]>)
              (set_repoUsers (<[key := int_wrap (users (svc w) key + 1)]>) (svc w)))
           (disk w) (S (heap w))
           (trace w ++ [EvDetect key; EvStat key; EvVcsOpen ty key])).
Proof.
  intros Hty Hh Hd Ho. unfold_calls. simpl. rewrite Hty. simpl. rewrite Hh. simpl.
  unfold os_Stat. rewrite Hd. simpl. rewrite Ho. simpl. rewrite Hh. simpl.
  by rewrite <- !app_assoc.
Qed.

Lemma run_open_outcome key w :
  open_outcome key w (run (open key) w).1 (run (open key) w).2.
Proof.
  destruct (vcsTypeFromDir (disk w) key) as [ty|err] eqn:Hty.
  2:{ rewrite (run_open_detect_fails key w err) by done. by constructor. }
  destruct (repos (svc w) !! key) as [h|] eqn:Hh.
  { rewrite (run_open_hit key w ty h) by done. by econstructor. }
  destruct (disk w !! key) as [[]|] eqn:Hd.
  - rewrite (run_open_file key w ty) by done. by econstructor 4.
  - destruct (vcs_Open (disk w) ty key) as [err|] eqn:Ho.
    + rewrite (run_open_backend_fails key w ty err) by done. by econstructor 5.
    + rewrite (run_open_miss key w ty) by done. by econstructor 6.
  - rewrite (run_open_absent key w ty) by done. by econstructor 3.
Qed.

Lemma open_outcome_frame key w r w' :
  open_outcome key w r w' →
  disk w' = disk w ∧ repoMu (svc w') = repoMu (svc w) ∧
  StorageDir (svc w') = StorageDir (svc w) ∧
  ∃ evs, trace w' = trace w ++ evs ∧ executor_calls evs = [].
Proof.
  destruct 1; simpl; repeat split; eauto.
Qed.

End open_lemmas.

Section clone_lemmas.
Context `{B : Backend}.

Lemma executor_calls_app (l1 l2 : list event) :
  executor_calls (l1 ++ l2) = executor_calls l1 ++ executor_calls l2.
Proof. apply omap_app. Qed.

Lemma events_since_app (w w' : world) (evs : list event) :
  trace w' = trace w ++ evs → events_since w w' = evs.
Proof. intros Htr. unfold events_since. rewrite Htr. apply drop_app_length. Qed.

(** What one run of [Clone_locked] does with the executor: it is not
    called, or it is called once and succeeds, or it is called once and
    fails; in the last case the error is returned, the temporary directory
    is next to the clone directory and gone, and nothing at or below the
    clone directory has changed. *)
Lemma Clone_locked_executor cloneDir info w :
  executor_confined →
  cloneDir ≠ [] →
  ∃ evs, trace (Clone_locked cloneDir info w).2 = trace w ++ evs ∧
    (executor_calls evs = [] ∨
     (∃ tmp, executor_calls evs = [(tmp, None)]) ∨
     (∃ tmp err, executor_calls evs = [(tmp, Some err)] ∧
        (Clone_locked cloneDir info w).1 = inr err ∧
        filepath_Dir tmp = filepath_Dir cloneDir ∧ tmp ≠ cloneDir ∧
        (∀ p, tmp `prefix_of` p → disk (Clone_locked cloneDir info w).2 !! p = None) ∧
        (∀ p, cloneDir `prefix_of` p →
           disk (Clone_locked cloneDir info w).2 !! p = disk w !! p))).
Proof.
  intros Hconf Hne. unfold Clone_locked, Clone_into.
  pose proof (λ w, open_outcome_frame _ _ _ _ (run_open_outcome cloneDir w)) as Hopen.
  set (ro := run (open cloneDir)) in *. clearbody ro.
  destruct (Hopen w) as (Hdisk & _ & _ & evs0 & Htr0 & Hex0).
  cbv [mbind M_bind]. destruct (ro w) as [r0 w0]. simpl in *.
  destruct (negb (IsNotExist (err_of r0))).
  { exists evs0. eauto. }
  unfold do_MkdirAll, do_TempDir. cbv [mbind M_bind mret M_ret emit get_disk put_disk]. simpl.
  destruct (os_MkdirAll (disk w0) (filepath_Dir cloneDir)) as [d1|err1] eqn:Hmk; simpl.
  2:{ exists (evs0 ++ [EvMkdirAll (filepath_Dir cloneDir)]). rewrite Htr0, <- app_assoc.
      split; [done|]. left. by rewrite executor_calls_app, Hex0. }
  set (pfx := "_tmp_" +:+ filepath_Base cloneDir +:+ "-").
  destruct (ioutil_TempDir d1 (filepath_Dir cloneDir) pfx) as [[tmp d2]|err2] eqn:Htmp; simpl.
  2:{ exists (evs0 ++ [EvMkdirAll (filepath_Dir cloneDir); EvTempDir (filepath_Dir cloneDir) pfx]).
      rewrite Htr0, <- !app_assoc. split; [done|]. left.
      by rewrite executor_calls_app, Hex0. }
  assert (tmp = filepath_Dir cloneDir ++ [pfx +:+ temp_suffix d1 (filepath_Dir cloneDir) pfx]
          ∧ d2 = <[tmp := Dir]> d1) as [Htmp_eq Hd2].
  { unfold ioutil_TempDir in Htmp. repeat case_match; simplify_eq. done. }
  unfold do_vcs_Clone, do_Rename, do_RemoveAll.
  cbv [mbind M_bind mret M_ret emit get_disk put_disk]. simpl.
  destruct (vcs_Clone d2 info tmp) as [d3 [err3|]] eqn:Hcl; simpl.
  - (* the executor fails *)
    exists (evs0 ++ [EvMkdirAll (filepath_Dir cloneDir); EvTempDir (filepath_Dir cloneDir) pfx;
                     EvVcsClone tmp (Some err3); EvRemoveAll tmp]).
    rewrite Htr0, <- !app_assoc. split; [done|]. right. right.
    exists tmp, err3. rewrite executor_calls_app, Hex0. simpl.
    assert (∀ p, tmp `prefix_of` p → cloneDir `prefix_of` p → False) as Hdisj.
    { intros p Hp1 Hp2. rewrite Htmp_eq in Hp1.
      eapply sibling_disjoint; [exact Hne| |exact Hp1|exact Hp2].
      apply tmp_name_fresh. }
    repeat split.
    + rewrite Htmp_eq. unfold filepath_Dir at 1. by rewrite removelast_last.
    + intros ->. by apply (Hdisj cloneDir).
    + intros p Hp. rewrite lookup_RemoveAll. by rewrite decide_True.
    + intros p Hp. rewrite lookup_RemoveAll.
      rewrite decide_False by (intros Hp'; by apply (Hdisj p)).
      replace d3 with (vcs_Clone d2 info tmp).1 by (by rewrite Hcl).
      rewrite Hconf by (intros Hp'; by apply (Hdisj p)).
      rewrite Hd2, lookup_insert_ne by (intros ->; by apply (Hdisj p)).
      unfold os_MkdirAll in Hmk.
      rewrite (mkdir_all_lookup _ _ _ _ p Hmk), Hdisk; [done|].
      simpl. by apply parent_not_below.
  - (* the executor succeeds *)
    destruct (os_Rename d3 tmp cloneDir) as [d4|err4] eqn:Hren; simpl.
    + set (w4 := World _ d4 _ _).
      destruct (Hopen w4) as (_ & _ & _ & evs4 & Htr4 & Hex4).
      destruct (ro w4) as [r4 w5]. simpl in *.
      exists (evs0 ++ [EvMkdirAll (filepath_Dir cloneDir); EvTempDir (filepath_Dir cloneDir) pfx;
                       EvVcsClone tmp None; EvRename tmp cloneDir] ++ evs4 ++ [EvRemoveAll tmp]).
      rewrite Htr4, Htr0. simpl. rewrite <- !app_assoc. simpl. split; [done|].
      right. left. exists tmp.
      rewrite !executor_calls_app, Hex0. simpl. rewrite executor_calls_app, Hex4. done.
    + exists (evs0 ++ [EvMkdirAll (filepath_Dir cloneDir); EvTempDir (filepath_Dir cloneDir) pfx;
                       EvVcsClone tmp None; EvRename tmp cloneDir; EvRemoveAll tmp]).
      rewrite Htr0, <- !app_assoc. split; [done|]. right. left. exists tmp.
      by rewrite executor_calls_app, Hex0.
Qed.

End clone_lemmas.

Section clone_failure.
Context `{B : Backend}.

Lemma Mutex_frame key w :
  disk (Mutex key w).2 = disk w ∧ trace (Mutex key w).2 = trace w ∧
  repos (svc (Mutex key w).2) = repos (svc w) ∧
  repoUsers (svc (Mutex key w).2) = repoUsers (svc w) ∧
  StorageDir (svc (Mutex key w).2) = StorageDir (svc w).
Proof.
  unfold Mutex. cbv [mbind M_bind mret M_ret get_svc put_svc alloc].
  by destruct (repoMu (svc w) !! key).
Qed.

(** C4.  When the Clone Executor fails during a call of [Clone] (the
    executor writing only below the directory it is given, and the clone
    directory not being the working directory itself), [Clone] returns the
    executor's error; the temporary directory is a sibling of the clone
    directory and neither it nor anything below it is on disk afterwards;
    and every path at or below the clone directory is as it was before the
    call, so a clone directory that was absent is still absent. *)
Theorem Clone_executor_failure (repoPath : path) (info : CloneInfo) (w : world)
    (tmp : path) (err : error) :
  executor_confined →
  (CloneDir (svc w) repoPath).1 ≠ [] →
  (tmp, Some err) ∈ executor_calls (events_since w (Clone repoPath info w).2) →
  let cloneDir := (CloneDir (svc w) repoPath).1 in
  let w' := (Clone repoPath info w).2 in
  (Clone repoPath info w).1 = inr err ∧
  filepath_Dir tmp = filepath_Dir cloneDir ∧ tmp ≠ cloneDir ∧
  (∀ p, tmp `prefix_of` p → disk w' !! p = None) ∧
  (∀ p, cloneDir `prefix_of` p → disk w' !! p = disk w !! p) ∧
  (disk w !! cloneDir = None → disk w' !! cloneDir = None).
Proof.
  intros Hconf Hne. unfold Clone. cbv [mbind M_bind get_svc CloneDir] in *.
  cbn [fst snd] in *.
  set (cloneDir := filepath_Join _ _) in *.
  pose proof (open_outcome_frame _ _ _ _ (run_open_outcome repoPath w)) as Hopen.
  pose proof (Clone_locked_executor cloneDir info) as Hlocked.
  set (ro := run (open repoPath)) in *. clearbody ro.
  set (cl := Clone_locked cloneDir info) in *. clearbody cl.
  destruct (ro w) as [r0 w0]. cbn [fst snd] in Hopen.
  destruct Hopen as (Hdisk & _ & _ & evs0 & Htr0 & Hex0).
  destruct (negb (IsNotExist (err_of r0))); cbn [fst snd mret M_ret].
  { rewrite (events_since_app _ _ _ Htr0), Hex0. by intros ?%elem_of_nil. }
  pose proof (Mutex_frame cloneDir w0) as (Hmd & Hmt & _).
  destruct (Mutex cloneDir w0) as [mu w1]. cbn [fst snd] in *.
  cbv [emit]. set (w2 := World (svc w1) _ _ _).
  destruct (Hlocked w2 Hconf Hne) as (evs & Htr & Hcases).
  destruct (cl w2) as [r3 w3]. cbv [mret M_ret]. cbn [fst snd disk] in *.
  assert (events_since w (World (svc w3) (disk w3) (heap w3) (trace w3 ++ [EvUnlock mu]))
          = evs0 ++ [EvLock mu] ++ evs ++ [EvUnlock mu]) as ->.
  { apply events_since_app. simpl. rewrite Htr. simpl. rewrite Hmt, Htr0.
    by rewrite <- !app_assoc. }
  rewrite !executor_calls_app. rewrite Hex0. simpl. rewrite app_nil_r.
  destruct Hcases as [->|[[tmp' ->]|(tmp' & err' & -> & -> & Hdir & Hneq & Hgone & Hsame)]].
  - by intros ?%elem_of_nil.
  - intros Hin%list_elem_of_singleton. discriminate.
  - intros Hin%list_elem_of_singleton. simplify_eq.
    repeat split; try done.
    + intros p Hp. rewrite Hsame by done. subst w2. cbn [disk].
      by rewrite Hmd, Hdisk.
    + intros Habs. rewrite Hsame by done. subst w2. cbn [disk].
      by rewrite Hmd, Hdisk.
Qed.

End clone_failure.

Lemma spec_executor_confined : executor_confined (B := spec_backend).
Proof.
  intros d info dir p Hp. simpl. unfold spec_vcs_Clone.
  case_bool_decide; simpl.
  - rewrite lookup_insert_ne; [done|]. intros <-. apply Hp. by apply prefix_app_r.
  - rewrite !lookup_insert_ne; [done| | |].
    + intros <-. by apply Hp.
    + intros <-. apply Hp. by apply prefix_app_r.
    + intros <-. apply Hp. by apply prefix_app_r.
Qed.

Lemma Clone_executor_failure_witness :
  (Clone (B := spec_backend) ["x"; "y"] bad_info w_empty).1
    = inr (Errorf "exec `git clone` failed") ∧
  disk (Clone (B := spec_backend) ["x"; "y"] bad_info w_empty).2
    !! ["store"; "x"; "_tmp_y-482910"] = None ∧
  disk (Clone (B := spec_backend) ["x"; "y"] bad_info w_empty).2
    !! ["store"; "x"; "y"] = None.
Proof.
  destruct (Clone_executor_failure (B := spec_backend) ["x"; "y"] bad_info w_empty
              ["store"; "x"; "_tmp_y-482910"] (Errorf "exec `git clone` failed"))
    as (Hres & _ & _ & Hgone & _ & Habsent).
  - exact spec_executor_confined.
  - discriminate.
  - vm_compute. constructor.
  - split; [exact Hres|]. split; [by apply Hgone | by apply Habsent].
Defined.

(** ** The fast path of [open] *)

Section fast_path.
Context `{B : Backend}.

(** A cached handle is handed out with the registry left as it was: the
    first critical section of [open] returns before [s.repoUsers[key]++]. *)
Lemma run_Open_hit repoPath w vcsType repo :
  vcsTypeFromDir (disk w) (CloneDir (svc w) repoPath).1 = inl vcsType →
  repos (svc w) !! (CloneDir (svc w) repoPath).1 = Some repo →
  run (Open repoPath) w
    = (inl repo, add_events w [EvDetect (CloneDir (svc w) repoPath).1]).
Proof.
  intros Hty Hrepo. unfold Open. cbv [mbind task_mbind atomic get_svc]. simpl.
  by apply (run_open_hit _ w vcsType).
Qed.

End fast_path.

(** C1.  [x/y] is cloned at [store/x/y] and has been opened once.  A
    second [Open] returns the same handle and leaves the count at 1; the
    [Close] matching it then takes the count to 0 and drops the handle and
    the count, although the first opener still holds the handle. *)
Theorem Open_cached_does_not_count :
  let key := ["store"; "x"; "y"] in
  let h := Handle 0 "git" key in
  let w2 := (run (Open (B := spec_backend) ["x"; "y"]) w_opened).2 in
  let w3 := (run (Close (B := spec_backend) ["x"; "y"]) w2).2 in
  repos (svc w_opened) !! key = Some h ∧
  repoUsers (svc w_opened) !! key = Some 1 ∧
  (run (Open (B := spec_backend) ["x"; "y"]) w_opened).1 = inl h ∧
  repoUsers (svc w2) !! key = Some 1 ∧
  repos (svc w3) !! key = None ∧
  repoUsers (svc w3) !! key = None.
Proof. vm_compute. done. Qed.

(** C5.  [x/y] is cloned at [store/x/y].  After Open, Open, Close, Close,
    Open, each [Close] matching an earlier [Open], the handle is in
    [repos] with a count of 0: the state breaks the invariant that held
    at the start. *)
Theorem counted_invariant_broken :
  let w := run_calls (B := spec_backend)
             [CallOpen ["x"; "y"]; CallOpen ["x"; "y"]; CallClose ["x"; "y"];
              CallClose ["x"; "y"]; CallOpen ["x"; "y"]] w_cloned in
  handles_iff_counted (svc w_cloned) ∧
  repos (svc w) !! ["store"; "x"; "y"] = Some (Handle 1 "git" ["store"; "x"; "y"]) ∧
  repoUsers (svc w) !! ["store"; "x"; "y"] = Some 0 ∧
  ¬ handles_iff_counted (svc w).
Proof.
  cbv zeta. set (w := run_calls _ w_cloned).
  assert (repos (svc w) !! ["store"; "x"; "y"]
          = Some (Handle 1 "git" ["store"; "x"; "y"])) as Hrepo
    by (vm_compute; reflexivity).
  assert (repoUsers (svc w) !! ["store"; "x"; "y"] = Some 0) as Hcount
    by (vm_compute; reflexivity).
  clearbody w. split; [|split; [done|split; [done|]]].
  - intros key. unfold w_cloned, boot, NewService. cbn [svc repos repoUsers].
    rewrite !lookup_empty. split.
    + by intros [? ?].
    + by intros (? & ? & ?).
  - intros Hinv. destruct (Hinv ["store"; "x"; "y"]) as [Hpos _].
    destruct Hpos as (n & Hn & Hlt); [by rewrite Hrepo|].
    rewrite Hcount in Hn. simplify_eq. lia.
Qed.

(** C3.  [x/y] is cloned at [store/x/y] and can be opened there.  [Clone]
    hands its first, lock-free [open] the repository path [x/y], not the
    clone directory; that path is not on disk, so [Clone] takes the
    per-directory lock and opens the clone directory only under it. *)
Theorem Clone_first_open_misses_clone_dir :
  (CloneDir (B := spec_backend) (svc w_cloned) ["x"; "y"]).1 = ["store"; "x"; "y"] ∧
  (run (open (B := spec_backend) ["store"; "x"; "y"]) w_cloned).1
    = inl (Handle 0 "git" ["store"; "x"; "y"]) ∧
  (Clone (B := spec_backend) ["x"; "y"] good_info w_cloned).1
    = inl (Handle 1 "git" ["store"; "x"; "y"]) ∧
  events_since w_cloned (Clone (B := spec_backend) ["x"; "y"] good_info w_cloned).2
    = [EvDetect ["x"; "y"]; EvLock 0; EvDetect ["store"; "x"; "y"];
       EvStat ["store"; "x"; "y"]; EvVcsOpen "git" ["store"; "x"; "y"]; EvUnlock 0].
Proof. vm_compute. done. Qed.

(** ** [Clone] of a path that is a repository in the working directory *)

Section stray.

Local Abbreviation rp := (["x"; "y"]).

(** [Clone] returns whatever repository its first [open] finds at the
    repository path, whichever backend is in use. *)
Lemma Clone_returns_at_repoPath `{B : Backend} repoPath info w vcsType :
  vcsTypeFromDir (disk w) repoPath = inl vcsType →
  repos (svc w) !! repoPath = None →
  disk w !! repoPath = Some Dir →
  vcs_Open (disk w) vcsType repoPath = None →
  (Clone repoPath info w).1 = inl (Handle (heap w) vcsType repoPath) ∧
  disk (Clone repoPath info w).2 = disk w ∧
  events_since w (Clone repoPath info w).2
    = [EvDetect repoPath; EvStat repoPath; EvVcsOpen vcsType repoPath].
Proof.
  intros Hty Hnone Hdir Hopen. unfold Clone.
  cbv [mbind M_bind get_svc CloneDir]. cbn [fst snd].
  rewrite (run_open_miss repoPath w vcsType Hty Hnone Hdir Hopen).
  cbv [IsNotExist err_of negb mret M_ret]. cbn [fst snd disk].
  repeat split. unfold events_since. cbn [trace]. apply drop_app_length.
Qed.

Lemma stray_Clone w :
  stray_inv w →
  (Clone (B := spec_backend) rp good_info w).1 = inl (Handle 0 "git" rp) ∧
  stray_inv (Clone (B := spec_backend) rp good_info w).2.
Proof.
  intros (Hsd & Hdisk & Hex & Hrepo). unfold Clone.
  cbv [mbind M_bind get_svc CloneDir]. cbn [fst snd].
  assert (vcsTypeFromDir (Backend := spec_backend) (disk w) rp = inl "git") as Hty
    by (rewrite Hdisk; vm_compute; done).
  destruct Hrepo as [[Hnone Hheap]|Hsome].
  - rewrite (run_open_miss rp w "git" Hty Hnone).
    + rewrite Hheap. cbv [IsNotExist err_of negb mret M_ret]. cbn [fst snd].
      split; [done|]. unfold stray_inv, set_repos, set_repoUsers.
      cbn [svc disk heap trace StorageDir repos].
      rewrite executor_calls_app, Hex. repeat split; try done.
      right. apply lookup_insert_eq.
    + rewrite Hdisk. by vm_compute.
    + done.
  - rewrite (run_open_hit rp w "git" _ Hty Hsome).
    cbv [IsNotExist err_of negb mret M_ret]. cbn [fst snd].
    split; [done|]. unfold stray_inv, add_events.
    cbn [svc disk heap trace StorageDir repos].
    rewrite executor_calls_app, Hex. repeat split; try done. by right.
Qed.

Lemma stray_run_calls n w :
  stray_inv w →
  stray_inv (run_calls (B := spec_backend) (replicate n (CallClone rp good_info)) w).
Proof.
  revert w. induction n as [|n IH]; intros w Hinv; simpl; [done|].
  apply IH. by apply stray_Clone.
Qed.

End stray.

(** C2.  No clone directory [store/x/y] exists, but the working directory
    holds a repository at [x/y].  However many times [Clone] is called for
    [x/y], the Clone Executor is never invoked and no clone directory
    appears: the lock-free first [open] is handed the repository path,
    finds the stray repository and returns a handle bound to it. *)
Theorem Clone_stray_never_clones (n : nat) :
  let key := (CloneDir (B := spec_backend) (svc w_stray) ["x"; "y"]).1 in
  let w := run_calls (B := spec_backend)
             (replicate n (CallClone ["x"; "y"] good_info)) w_stray in
  key = ["store"; "x"; "y"] ∧
  disk w_stray !! key = None ∧
  executor_calls (trace w) = [] ∧
  disk w !! key = None ∧
  (Clone (B := spec_backend) ["x"; "y"] good_info w).1 = inl (Handle 0 "git" ["x"; "y"]).
Proof.
  assert (stray_inv w_stray) as Hinv0.
  { repeat split; try done. left. split; [|done]. by vm_compute. }
  pose proof (stray_run_calls n _ Hinv0) as Hinv.
  destruct (stray_Clone _ Hinv) as [Hres _].
  destruct Hinv as (_ & Hdisk & Hex & _).
  simpl. repeat split; try done.
  rewrite Hdisk. by vm_compute.
Qed.

(** ** [Open] of a repository that is not on disk *)

Section cold_open.
Context `{B : Backend}.

Lemma run_Open_open repoPath w :
  run (Open repoPath) w = run (open (CloneDir (svc w) repoPath).1) w.
Proof. unfold Open. by cbv [mbind task_mbind atomic get_svc]. Qed.


End cold_open.



(** ** [Close] down to zero *)

Section closing.
Context `{B : Backend}.

Lemma int_wrap_small (z : Z) : - 2 ^ 63 ≤ z < 2 ^ 63 → int_wrap z = z.
Proof. intros Hz. unfold int_wrap. rewrite Z.mod_small; lia. Qed.

Lemma run_Close repoPath w :
  run (Close repoPath) w
    = (inl tt, World (close_key (CloneDir (svc w) repoPath).1 (svc w))
                 (disk w) (heap w) (trace w)).
Proof. by destruct w. Qed.

Lemma run_calls_cons c cs w : run_calls (c :: cs) w = run_calls cs (run_call c w).
Proof. done. Qed.

Lemma run_calls_app cs1 cs2 w :
  run_calls (cs1 ++ cs2) w = run_calls cs2 (run_calls cs1 w).
Proof. apply foldl_app. Qed.

Lemma StorageDir_close_key key s : StorageDir (close_key key s) = StorageDir s.
Proof. unfold close_key. by case_bool_decide. Qed.

Lemma repoMu_close_key key s : repoMu (close_key key s) = repoMu s.
Proof. unfold close_key. by case_bool_decide. Qed.

Lemma users_set key s z :
  users (set_repoUsers (<[key := z]>) s) key = z.
Proof. unfold users, set_repoUsers. simpl. by rewrite lookup_insert_eq. Qed.

Lemma close_key_last key s :
  repoUsers s !! key = Some 1 →
  repos (close_key key s) !! key = None ∧ repoUsers (close_key key s) !! key = None.
Proof.
  intros Hn. unfold close_key. rewrite users_set.
  assert (users s key = 1) as -> by (unfold users; by rewrite Hn).
  rewrite bool_decide_true by done.
  unfold set_repos, set_repoUsers. simpl. by rewrite !lookup_delete_eq.
Qed.

Lemma close_key_more key s n :
  repoUsers s !! key = Some n → 1 < n < 2 ^ 63 →
  repos (close_key key s) = repos s ∧
  repoUsers (close_key key s) !! key = Some (n - 1).
Proof.
  intros Hn Hrange. unfold close_key. rewrite users_set.
  assert (users s key = n) as -> by (unfold users; by rewrite Hn).
  rewrite int_wrap_small by lia.
  rewrite bool_decide_false by lia.
  unfold set_repoUsers. simpl. by rewrite lookup_insert_eq.
Qed.

(** [m + 1] calls of [Close] on a count of [m + 1] leave neither handle
    nor count, and touch nothing but the two maps. *)
Lemma Close_down repoPath (m : nat) : ∀ w,
  repoUsers (svc w) !! (CloneDir (svc w) repoPath).1 = Some (Z.of_nat (S m)) →
  Z.of_nat (S m) < 2 ^ 63 →
  let w' := run_calls (replicate (S m) (CallClose repoPath)) w in
  repos (svc w') !! (CloneDir (svc w) repoPath).1 = None ∧
  repoUsers (svc w') !! (CloneDir (svc w) repoPath).1 = None ∧
  StorageDir (svc w') = StorageDir (svc w) ∧ repoMu (svc w') = repoMu (svc w) ∧
  disk w' = disk w ∧ heap w' = heap w ∧ trace w' = trace w.
Proof.
  induction m as [|m IH]; intros w Hn Hrange w'; subst w';
    rewrite replicate_S, run_calls_cons; cbn [run_call];
    rewrite run_Close; cbn [snd].
  - cbn [replicate run_calls foldl svc disk heap trace].
    destruct (close_key_last _ _ Hn) as [-> ->].
    by rewrite StorageDir_close_key, repoMu_close_key.
  - set (key := (CloneDir (svc w) repoPath).1) in *.
    set (w1 := World (close_key key (svc w)) (disk w) (heap w) (trace w)).
    destruct (close_key_more key (svc w) _ Hn) as [Hrepos Hcount]; [lia|].
    assert ((CloneDir (svc w1) repoPath).1 = key) as Hkey.
    { unfold key, CloneDir. simpl. by rewrite StorageDir_close_key. }
    specialize (IH w1). rewrite Hkey in IH.
    destruct IH as (? & ? & HS & HM & ? & ? & ?).
    { simpl. rewrite Hcount. f_equal. lia. }
    { lia. }
    repeat split; try done.
    + rewrite HS. simpl. by rewrite StorageDir_close_key.
    + rewrite HM. simpl. by rewrite repoMu_close_key.
Qed.

(** C7.  The count of [repoPath] is [n > 0].  After exactly [n] calls of
    [Close] neither its handle nor its count is in the maps, and the calls
    have touched neither the disk nor the trace of system and backend
    calls.  An [Open] after that is cold: a handle it returns is a new one,
    built by stat and [vcs.Open] from the disk and counted once; and if the
    clone directory is not on disk it fails, with the [ENOENT] of [os.Stat]
    unless detection failed first. *)
Theorem Close_refcount_times (repoPath : path) (w : world) (n : Z) :
  let key := (CloneDir (svc w) repoPath).1 in
  repoUsers (svc w) !! key = Some n →
  0 < n < 2 ^ 63 →
  let w' := run_calls (replicate (Z.to_nat n) (CallClose repoPath)) w in
  let w'' := (run (Open repoPath) w').2 in
  repos (svc w') !! key = None ∧
  repoUsers (svc w') !! key = None ∧
  disk w' = disk w ∧ trace w' = trace w ∧
  (∀ repo, (run (Open repoPath) w').1 = inl repo →
     repo = Handle (heap w') (h_vcs repo) key ∧
     events_since w' w'' = [EvDetect key; EvStat key; EvVcsOpen (h_vcs repo) key] ∧
     repoUsers (svc w'') !! key = Some 1 ∧ repos (svc w'') !! key = Some repo) ∧
  (disk w !! key = None →
     ∃ err, (run (Open repoPath) w').1 = inr err ∧
       (err = PathError "stat" key ENOENT ∨ vcsTypeFromDir (disk w) key = inr err)).
Proof.
  intros key Hn Hrange w'.
  destruct (Z.to_nat n) as [|m] eqn:Hm; [lia|].
  assert (n = Z.of_nat (S m)) as Hn' by lia.
  destruct (Close_down repoPath m w) as (Hrepos & Hcount & HS & _ & Hdisk & _ & Htrace).
  { fold key. by rewrite <- Hn'. }
  { lia. }
  fold key w' in Hrepos, Hcount, HS, Hdisk, Htrace.
  intros w''. split; [done|split; [done|split; [done|split; [done|split]]]].
  - intros h0 Hres. subst w''. rewrite run_Open_open in *.
    assert ((CloneDir (svc w') repoPath).1 = key) as Hkey
      by (unfold key, CloneDir; simpl; by rewrite HS).
    rewrite Hkey in *.
    pose proof (run_open_outcome key w') as Hout.
    destruct (run (open key) w') as [r w2]. simpl in Hres, Hout. subst r.
    inversion Hout; subst; simpl.
    + congruence.
    + unfold events_since. simpl. rewrite drop_app_length.
      unfold users. rewrite Hcount. simpl.
      rewrite !lookup_insert_eq. done.
  - intros Habs. rewrite run_Open_open.
    assert ((CloneDir (svc w') repoPath).1 = key) as Hkey
      by (unfold key, CloneDir; simpl; by rewrite HS).
    rewrite Hkey. rewrite <- Hdisk in *.
    destruct (vcsTypeFromDir (disk w') key) as [ty|err] eqn:Hty.
    + rewrite (run_open_absent key w' ty) by done. simpl. eauto.
    + rewrite (run_open_detect_fails key w' err) by done. simpl. eauto.
Qed.

End closing.

Lemma Close_refcount_times_witness :
  let w' := run_calls (B := spec_backend) (replicate 3 (CallClose ["x"; "y"])) w_three in
  repos (svc w') !! ["store"; "x"; "y"] = None ∧
  repoUsers (svc w') !! ["store"; "x"; "y"] = None ∧
  trace w' = [].
Proof.
  destruct (Close_refcount_times (B := spec_backend) ["x"; "y"] w_three 3)
    as (Hrepos & Hcount & _ & Htrace & _).
  - reflexivity.
  - lia.
  - exact (conj Hrepos (conj Hcount Htrace)).
Defined.

(** ** [Open] and the cache *)

Section cache_order.
Context `{B : Backend}.

(** C8, as amended.  Every [Open] starts with backend detection on the
    clone directory, before [repos] is looked at; [os.Stat] and [vcs.Open]
    are the only calls that can follow, and when the handle is cached
    nothing follows.  Step by step: the first step of [Open] reads the
    configuration and the second is detection, which leaves its event and
    nothing else.  If detection fails [Open] is over, [repos] not having
    been read.  If not, the step after it is the look into [repos], in
    whatever world that step finds: a handle that is there, also one
    published since detection ran, is returned with no call made and
    nothing changed, and only when none is there is [os.Stat] the next
    step. *)
Theorem Open_detects_before_cache (repoPath : path) (w : world) :
  let key := (CloneDir (svc w) repoPath).1 in
  let w' := (run (Open repoPath) w).2 in
  let t1 := (step (Open repoPath) w).1 in
  let w1 := (step (Open repoPath) w).2 in
  let t2 := (step t1 w1).1 in
  let w2 := (step t1 w1).2 in
  (∃ evs, events_since w w' = EvDetect key :: evs ∧
     Forall (λ e, e = EvStat key ∨ ∃ vcsType, e = EvVcsOpen vcsType key) evs ∧
     (is_Some (repos (svc w) !! key) → evs = [])) ∧
  w1 = w ∧ w2 = add_events w [EvDetect key] ∧
  (∀ err, vcsTypeFromDir (disk w) key = inr err → t2 = Done (inr err)) ∧
  (∀ vcsType, vcsTypeFromDir (disk w) key = inl vcsType →
     ∀ w3,
       (∀ repo, repos (svc w3) !! key = Some repo →
          step t2 w3 = (Done (inl repo), w3)) ∧
       (repos (svc w3) !! key = None →
          (step t2 w3).2 = w3 ∧
          ∀ w4, (step (step t2 w3).1 w4).2 = add_events w4 [EvStat key])).
Proof.
  intros key w' t1 w1 t2 w2. split.
  { subst w'. rewrite run_Open_open. fold key.
    pose proof (run_open_outcome key w) as Hout.
    destruct (run (open key) w) as [r w0]. simpl in *.
    unfold events_since.
    destruct Hout; simpl; rewrite drop_app_length.
    - exists []. auto.
    - exists []. auto.
    - exists [EvStat key]. split; [done|split].
      + repeat constructor.
      + intros [? ?]; congruence.
    - exists [EvStat key]. split; [done|split].
      + repeat constructor.
      + intros [? ?]; congruence.
    - exists [EvStat key; EvVcsOpen vcsType key]. split; [done|split].
      + constructor; [by left|]. constructor; [right; by eexists|constructor].
      + intros [? ?]; congruence.
    - exists [EvStat key; EvVcsOpen vcsType key]. split; [done|split].
      + constructor; [by left|]. constructor; [right; by eexists|constructor].
      + intros [? ?]; congruence. }
  subst t1 w1 t2 w2. unfold Open, open.
  cbv [atomic mbind task_mbind task_bind mret task_ret step get_svc M_ret].
  cbn [fst snd]. subst key. unfold CloneDir. cbn [fst snd].
  set (key := filepath_Join _ _).
  cbv [do_vcsTypeFromDir mbind M_bind emit get_disk mret M_ret]. cbn [fst snd disk].
  split; [done|]. split; [done|]. split.
  - by intros err ->.
  - intros vcsType -> w3. cbv [step open_cached mbind M_bind get_svc mret M_ret].
    cbn [fst snd]. split.
    + by intros repo ->.
    + intros ->. split; [done|]. intros w4.
      cbv [step do_Stat mbind M_bind emit get_disk mret M_ret]. cbn [fst snd disk].
      done.
Qed.

End cache_order.

(** C8, as stated, fails: [x/y] has been opened and its handle is cached,
    so the next [Open] has no cache miss, yet backend detection is
    performed on the clone directory. *)
Lemma Open_cached_still_detects :
  repos (svc w_opened) !! ["store"; "x"; "y"]
    = Some (Handle 0 "git" ["store"; "x"; "y"]) ∧
  EvDetect ["store"; "x"; "y"]
    ∈ events_since w_opened (run (Open (B := spec_backend) ["x"; "y"]) w_opened).2.
Proof.
  split; [vm_compute; reflexivity|].
  assert (events_since w_opened (run (Open (B := spec_backend) ["x"; "y"]) w_opened).2
          = [EvDetect ["store"; "x"; "y"]]) as -> by (vm_compute; reflexivity).
  apply list_elem_of_here.
Qed.

(** The order seen from outside.  [x/y] is cloned at [store/x/y] and not
    opened yet.  A goroutine runs its detection; a second one then runs its
    whole [Open] and publishes a handle; the first one's next step finds
    that handle in [repos] and returns it.  So the first goroutine looked
    into [repos] after its detection, and made no other call. *)
Example Open_hits_handle_published_after_detection :
  let raced := interleave [0; 0; 1; 1; 1; 1; 1; 1; 0]%nat
                 [Open (B := spec_backend) ["x"; "y"]; Open (B := spec_backend) ["x"; "y"]]
                 w_cloned in
  raced.1 = [Done (inl (Handle 0 "git" ["store"; "x"; "y"]));
             Done (inl (Handle 0 "git" ["store"; "x"; "y"]))] ∧
  trace raced.2 = [EvDetect ["store"; "x"; "y"]; EvDetect ["store"; "x"; "y"];
                   EvStat ["store"; "x"; "y"]; EvVcsOpen "git" ["store"; "x"; "y"]] ∧
  repoUsers (svc raced.2) !! ["store"; "x"; "y"] = Some 1.
Proof. vm_compute. done. Qed.

(** ** What a call can do to the maps *)

Section growth.
Context `{B : Backend}.

Lemma grows_ret {A} (a : A) : grows (mret a).
Proof. intros w. simpl. reflexivity. Qed.

Lemma grows_bind {A C} (m : M A) (f : A → M C) :
  grows m → (∀ a, grows (f a)) → grows (m ≫= f).
Proof.
  intros Hm Hf w. cbv [mbind M_bind]. specialize (Hm w).
  destruct (m w) as [a w1]. simpl in Hm. etrans; [exact Hm|]. apply Hf.
Qed.

Lemma grows_emit e : grows (emit e).
Proof. intros w. simpl. reflexivity. Qed.

Lemma grows_get_disk : grows get_disk.
Proof. intros w. simpl. reflexivity. Qed.

Lemma grows_put_disk d : grows (put_disk d).
Proof. intros w. simpl. reflexivity. Qed.

Lemma grows_get_svc : grows get_svc.
Proof. intros w. simpl. reflexivity. Qed.

Lemma grows_alloc : grows alloc.
Proof. intros w. simpl. reflexivity. Qed.

Lemma grows_open key : grows (run (open key)).
Proof.
  intros w. destruct (run_open_outcome key w); simpl; try reflexivity.
  apply rtc_once. by constructor.
Qed.

Lemma grows_Mutex key : grows (Mutex key).
Proof.
  intros w. unfold Mutex. cbv [mbind M_bind mret M_ret get_svc put_svc alloc].
  destruct (repoMu (svc w) !! key) eqn:Hmu; simpl; [reflexivity|].
  apply rtc_once. by constructor.
Qed.

Local Ltac grows_step :=
  first
    [ apply grows_ret | apply grows_emit | apply grows_get_disk | apply grows_put_disk
    | apply grows_get_svc | apply grows_alloc | apply grows_open | apply grows_Mutex
    | apply grows_bind; [|intros ?]
    | match goal with
      | |- grows (match ?x with _ => _ end) => destruct x
      end ].

Lemma grows_Clone_locked cloneDir info : grows (Clone_locked cloneDir info).
Proof.
  unfold Clone_locked, Clone_into, do_MkdirAll, do_TempDir, do_vcs_Clone,
    do_Rename, do_RemoveAll.
  repeat grows_step.
Qed.

Lemma grows_Clone repoPath info : grows (Clone repoPath info).
Proof.
  unfold Clone. apply grows_bind; [apply grows_get_svc|]. intros s.
  unfold CloneDir. cbn [fst snd]. apply grows_bind; [apply grows_open|]. intros r.
  destruct (negb (IsNotExist (err_of r))); [apply grows_ret|].
  apply grows_bind; [apply grows_Mutex|]. intros mu.
  apply grows_bind; [apply grows_emit|]. intros _.
  apply grows_bind; [apply grows_Clone_locked|]. intros r'.
  apply grows_bind; [apply grows_emit|]. intros _. apply grows_ret.
Qed.

(** A call either only adds to the maps, or is one [Close]. *)
Lemma run_call_cases c w :
  rtc svc_grow (svc w) (svc (run_call c w)) ∨
  ∃ key, svc (run_call c w) = close_key key (svc w).
Proof.
  destruct c as [repoPath|repoPath|repoPath info|key]; cbn [run_call].
  - left. rewrite run_Open_open. apply grows_open.
  - right. rewrite run_Close. by eexists.
  - left. apply grows_Clone.
  - left. apply grows_Mutex.
Qed.

(** Locks stay. *)
Lemma svc_grow_repoMu s s' key mu :
  svc_grow s s' → repoMu s !! key = Some mu → repoMu s' !! key = Some mu.
Proof.
  destruct 1 as [s k repo Hk|s k mu' Hk]; simpl; [done|].
  intros Hmu. rewrite lookup_insert_ne; [done|]. intros ->. congruence.
Qed.

Lemma rtc_svc_grow_repoMu s s' key mu :
  rtc svc_grow s s' → repoMu s !! key = Some mu → repoMu s' !! key = Some mu.
Proof. induction 1; eauto using svc_grow_repoMu. Qed.

Lemma run_call_repoMu c w key mu :
  repoMu (svc w) !! key = Some mu → repoMu (svc (run_call c w)) !! key = Some mu.
Proof.
  intros Hmu. destruct (run_call_cases c w) as [Hgrow|[k ->]].
  - by eapply rtc_svc_grow_repoMu.
  - by rewrite repoMu_close_key.
Qed.

Lemma run_calls_repoMu cs w key mu :
  repoMu (svc w) !! key = Some mu → repoMu (svc (run_calls cs w)) !! key = Some mu.
Proof.
  revert w. induction cs as [|c cs IH]; intros w Hmu; [done|].
  rewrite run_calls_cons. by apply IH, run_call_repoMu.
Qed.

Lemma Mutex_present key w mu :
  repoMu (svc w) !! key = Some mu → Mutex key w = (mu, w).
Proof.
  intros Hmu. unfold Mutex. cbv [mbind M_bind mret M_ret get_svc]. by rewrite Hmu.
Qed.

Lemma Mutex_absent key w :
  repoMu (svc w) !! key = None →
  Mutex key w = (heap w, World (set_repoMu (<[key := heap w]>) (svc w))
                           (disk w) (S (heap w)) (trace w)).
Proof.
  intros Hmu. unfold Mutex. cbv [mbind M_bind mret M_ret get_svc put_svc alloc].
  by rewrite Hmu.
Qed.

Lemma Mutex_stored key w :
  repoMu (svc (Mutex key w).2) !! key = Some (Mutex key w).1.
Proof.
  destruct (repoMu (svc w) !! key) as [mu|] eqn:Hmu.
  - by rewrite (Mutex_present key w mu).
  - rewrite Mutex_absent by done. simpl. apply lookup_insert_eq.
Qed.

(** C9.  A new service has no locks.  [Mutex] on a key without a lock
    makes one, a new object, and stores it under the key.  Asking again
    gives the same lock and changes nothing, and so does asking after any
    further calls of [Open], [Close], [Clone] and [Mutex]: none of them
    takes a lock out of [repoMu] or replaces it. *)
Theorem Mutex_lazy_and_stable (storageDir key : path) (w : world) (cs : list call) :
  let mu := (Mutex key w).1 in
  let w1 := (Mutex key w).2 in
  repoMu (NewService storageDir) = ∅ ∧
  (repoMu (svc w) !! key = None →
     mu = heap w ∧ repoMu (svc w1) = <[key := heap w]> (repoMu (svc w))) ∧
  Mutex key w1 = (mu, w1) ∧
  (Mutex key (run_calls cs w1)).1 = mu ∧
  (∀ k m, repoMu (svc w) !! k = Some m → repoMu (svc (run_calls cs w)) !! k = Some m).
Proof.
  intros mu w1. split; [done|]. split; [|split; [|split]].
  - intros Hnone. subst mu w1. by rewrite Mutex_absent.
  - apply Mutex_present, Mutex_stored.
  - erewrite Mutex_present; [done|]. apply run_calls_repoMu, Mutex_stored.
  - intros k m. apply run_calls_repoMu.
Qed.

End growth.

(** ** [Close] without a count *)

Section untracked.
Context `{B : Backend}.

Lemma svc_grow_kept key lo s s' :
  - 2 ^ 63 ≤ lo →
  svc_grow s s' → kept_count key lo s → kept_count key lo s'.
Proof.
  intros Hlo Hgrow (c & Hc & Hle & Hcases).
  destruct Hgrow as [s k repo Hk|s k mu Hk]; [|by exists c].
  destruct (decide (k = key)) as [->|Hne].
  - destruct Hcases as [Hneg|[? ?]]; [|congruence].
    exists (c + 1). unfold users. rewrite Hc. simpl.
    rewrite int_wrap_small by lia. rewrite !lookup_insert_eq.
    repeat split; [lia|]. right. by eexists.
  - exists c. simpl. by rewrite !lookup_insert_ne.
Qed.

Lemma rtc_svc_grow_kept key lo s s' :
  - 2 ^ 63 ≤ lo →
  rtc svc_grow s s' → kept_count key lo s → kept_count key lo s'.
Proof. intros Hlo. induction 1; eauto using svc_grow_kept. Qed.

Lemma close_key_other key k s :
  k ≠ key →
  repos (close_key k s) !! key = repos s !! key ∧
  repoUsers (close_key k s) !! key = repoUsers s !! key.
Proof.
  intros Hne. unfold close_key. case_bool_decide; simpl.
  - by rewrite !lookup_delete_ne, lookup_insert_ne.
  - by rewrite lookup_insert_ne.
Qed.

(** A [Close] that finds a count at or below [0] leaves it on record, one
    lower if it is the count of its own key. *)
Lemma close_key_kept key k c s :
  repoUsers s !! key = Some c → - 2 ^ 63 < c ≤ 0 →
  ∃ c', repoUsers (close_key k s) !! key = Some c' ∧ c - 1 ≤ c'.
Proof.
  intros Hc Hrange. destruct (decide (k = key)) as [->|Hne].
  - exists (c - 1). unfold close_key. rewrite users_set.
    assert (users s key = c) as -> by (unfold users; by rewrite Hc).
    rewrite int_wrap_small by lia. rewrite bool_decide_false by lia.
    simpl. by rewrite lookup_insert_eq.
  - destruct (close_key_other key k s Hne) as [_ Hu].
    exists c. rewrite Hu. split; [done|lia].
Qed.

(** No call takes away a count it found at or below [0]. *)
Lemma run_call_kept key c call w :
  repoUsers (svc w) !! key = Some c → - 2 ^ 63 < c ≤ 0 →
  ∃ c', repoUsers (svc (run_call call w)) !! key = Some c' ∧ c - 1 ≤ c'.
Proof.
  intros Hc Hrange. destruct (run_call_cases call w) as [Hgrow|[k ->]].
  - destruct (rtc_svc_grow_kept key c _ _ ltac:(lia) Hgrow) as (c' & Hc' & Hle & _).
    { exists c. repeat split; [done|lia|]. left. lia. }
    exists c'. split; [done|lia].
  - by apply close_key_kept.
Qed.

Lemma run_calls_kept key cs : ∀ lo c w,
  repoUsers (svc w) !! key = Some c → lo ≤ c →
  - 2 ^ 63 < lo - Z.of_nat (length cs) + 1 →
  (∀ i, (i < length cs)%nat → users (svc (run_calls (take i cs) w)) key ≤ 0) →
  ∃ c', repoUsers (svc (run_calls cs w)) !! key = Some c' ∧
        lo - Z.of_nat (length cs) ≤ c'.
Proof.
  induction cs as [|call cs IH]; intros lo c w Hc Hlo Hrange Hlow.
  - exists c. simpl. split; [done|lia].
  - rewrite run_calls_cons. simpl length in *.
    assert (c ≤ 0) as Hc0.
    { specialize (Hlow 0%nat ltac:(lia)). simpl in Hlow.
      unfold users in Hlow. by rewrite Hc in Hlow. }
    destruct (run_call_kept key c call w Hc) as (c1 & Hc1 & Hle1); [lia|].
    destruct (IH (lo - 1) c1 (run_call call w) Hc1) as (c' & Hc' & Hle'); [lia|lia| |].
    + intros i Hi. apply (Hlow (S i)). lia.
    + exists c'. split; [done|lia].
Qed.

(** C10, as amended.  [CloneDir] never returns an error, so [Close] never
    panics.  On a clone directory without a count it stores [-1].  In a
    history of calls that do not overlap (fewer than 2^63 of them) the
    entry is still there after every call that found the count at or below
    [0]: a decrement takes such a count further down, never to exactly
    [0], and nothing but a decrement to [0] removes an entry. *)
Theorem Close_untracked_stays (repoPath : path) (w : world) (cs : list call) :
  let key := (CloneDir (svc w) repoPath).1 in
  let w1 := (run (Close repoPath) w).2 in
  repoUsers (svc w) !! key = None →
  Z.of_nat (length cs) < 2 ^ 63 →
  (∀ i, (i < length cs)%nat → users (svc (run_calls (take i cs) w1)) key ≤ 0) →
  (∀ s p, (CloneDir s p).2 = None) ∧
  (run (Close repoPath) w).1 = inl tt ∧
  repoUsers (svc w1) !! key = Some (-1) ∧
  is_Some (repoUsers (svc (run_calls cs w1)) !! key).
Proof.
  intros key w1 Hnone Hlen. subst w1. rewrite run_Close. fold key. cbn [fst snd svc].
  assert (repoUsers (close_key key (svc w)) !! key = Some (-1)) as Hminus.
  { unfold close_key. rewrite users_set.
    assert (users (svc w) key = 0) as -> by (unfold users; by rewrite Hnone).
    rewrite bool_decide_false by done. simpl. by rewrite lookup_insert_eq. }
  set (w1 := World _ _ _ _). intros Hlow.
  split; [done|split; [done|split; [done|]]].
  destruct (run_calls_kept key cs (-1) (-1) w1) as (c & Hc & _); [done|lia|lia|done|].
  by exists c.
Qed.

End untracked.

Lemma Close_untracked_stays_witness :
  let w1 := (run (Close (B := spec_backend) ["x"; "y"]) w_cloned).2 in
  repoUsers (svc w1) !! ["store"; "x"; "y"] = Some (-1) ∧
  is_Some (repoUsers (svc (run_calls (B := spec_backend)
                             [CallClose ["x"; "y"]; CallOpen ["x"; "y"]; CallClose ["x"; "y"]]
                             w1)) !! ["store"; "x"; "y"]).
Proof.
  destruct (Close_untracked_stays (B := spec_backend) ["x"; "y"] w_cloned
              [CallClose ["x"; "y"]; CallOpen ["x"; "y"]; CallClose ["x"; "y"]])
    as (_ & _ & Hminus & Hstays).
  - reflexivity.
  - simpl. lia.
  - intros [|[|[|i]]] Hi; [by vm_compute..|simpl in Hi; lia].
  - exact (conj Hminus Hstays).
Defined.

(** C10, as stated, fails when two [Open]s overlap.  [x/y] is cloned at
    [store/x/y]; a [Close] without a count stores [-1]; two goroutines then
    call [Open], and both are past the first critical section of [open]
    before either reaches the second.  Both count themselves, the count is
    [1], and the next [Close] takes it to [0] and removes the entry. *)
Lemma Close_untracked_removed_after_race :
  let key := ["store"; "x"; "y"] in
  let w1 := (run (Close (B := spec_backend) ["x"; "y"]) w_cloned).2 in
  let raced := interleave [0; 0; 0; 0; 0; 1; 1; 1; 1; 1; 0; 1]%nat
                 [Open (B := spec_backend) ["x"; "y"]; Open (B := spec_backend) ["x"; "y"]]
                 w1 in
  let w3 := (run (Close (B := spec_backend) ["x"; "y"]) raced.2).2 in
  repoUsers (svc w_cloned) !! key = None ∧
  repoUsers (svc w1) !! key = Some (-1) ∧
  raced.1 = [Done (inl (Handle 0 "git" key)); Done (inl (Handle 0 "git" key))] ∧
  repoUsers (svc raced.2) !! key = Some 1 ∧
  repoUsers (svc w3) !! key = None.
Proof. vm_compute. done. Qed.

(** A goroutine scheduled alone runs its call as [run] does. *)
Lemma interleave_alone {A} (t : task A) : ∀ w,
  ∃ n, interleave (replicate n 0%nat) [t] w = ([Done (run t w).1], (run t w).2).
Proof.
  induction t as [a|X m k IH]; intros w.
  - by exists 0%nat.
  - simpl. destruct (m w) as [x w1] eqn:Hm.
    destruct (IH x w1) as [n Hn]. exists (S n). simpl. by rewrite Hm.
Qed.

(** ** A first clone, end to end *)

(** Nothing is on disk.  [Clone] of [x/y] finds neither [x/y] nor
    [store/x/y], takes the lock, clones into a temporary sibling, renames
    it into place and opens it: the executor has run once, the clone is at
    [store/x/y] with its count at 1, and the temporary directory is gone.
    An [Open] after that returns the same handle. *)
Example Clone_fresh :
  let r := Clone (B := spec_backend) ["x"; "y"] good_info w_empty in
  let key := ["store"; "x"; "y"] in
  r.1 = inl (Handle 1 "git" key) ∧
  executor_calls (trace r.2) = [(["store"; "x"; "_tmp_y-482910"], None)] ∧
  disk r.2 = {[ [] := Dir; ["store"] := Dir; ["store"; "x"] := Dir; key := Dir;
                key ++ ["HEAD"] := File; key ++ ["objects"] := Dir ]} ∧
  repoUsers (svc r.2) !! key = Some 1 ∧
  repoMu (svc r.2) !! key = Some 0%nat ∧
  (run (Open (B := spec_backend) ["x"; "y"]) r.2).1 = inl (Handle 1 "git" key).
Proof. cbv zeta. repeat split; vm_compute; reflexivity. Qed.

(** ** Goroutines under a schedule *)

Section rely_guarantee.
Context {A : Type} (I : world → Prop) (G : world → world → Prop) (Q : A → world → Prop).
Hypothesis Q_stable : ∀ a w w', G w w' → Q a w → Q a w'.

Lemma settled_stable w w' (t : task A) :
  rtc G w w' → settled I G Q w t → settled I G Q w' t.
Proof.
  induction 1 as [|w1 w2 w3 H12 _ IH]; [done|].
  intros [Hs Hq]. apply IH. split; [done|]. intros a Ha. eauto.
Qed.

Lemma step_sound (t : task A) w :
  I w → settled I G Q w t →
  I (step t w).2 ∧ rtc G w (step t w).2 ∧ settled I G Q (step t w).2 (step t w).1.
Proof.
  intros HI [Hs Hq]. destruct t as [a|X m k]; simpl.
  - split; [done|]. split; [reflexivity|]. by split.
  - simpl in Hs. destruct (Hs w HI) as (HI' & HG & HQ & Hk).
    destruct (m w) as [x w1]. simpl in *.
    split; [done|]. split; [by apply rtc_once|]. by split.
Qed.

Lemma interleave_sound sched : ∀ (pool : list (task A)) w,
  I w → Forall (settled I G Q w) pool →
  I (interleave sched pool w).2 ∧ rtc G w (interleave sched pool w).2 ∧
  Forall (settled I G Q (interleave sched pool w).2) (interleave sched pool w).1.
Proof.
  induction sched as [|i sched IH]; intros pool w HI Hpool; simpl.
  - split; [done|]. split; [reflexivity|done].
  - destruct (pool !! i) as [t|] eqn:Hi; [|by apply IH].
    assert (settled I G Q w t) as Ht.
    { rewrite Forall_forall in Hpool. apply Hpool. by eapply list_elem_of_lookup_2. }
    destruct (step_sound t w HI Ht) as (HI1 & HG1 & Ht1).
    destruct (step t w) as [t1 w1]. simpl in *.
    destruct (IH (<[i := t1]> pool) w1 HI1) as (HI2 & HG2 & Hpool2).
    { apply Forall_insert; [|done].
      eapply Forall_impl; [exact Hpool|]. intros t0. by apply settled_stable. }
    split; [done|]. split; [|done]. by etrans.
Qed.

End rely_guarantee.

Section steps.
Context `{B : Backend}.

Lemma do_vcsTypeFromDir_eq dir w :
  do_vcsTypeFromDir dir w = (vcsTypeFromDir (disk w) dir, add_events w [EvDetect dir]).
Proof. done. Qed.

Lemma open_cached_eq key w : open_cached key w = (repos (svc w) !! key, w).
Proof. done. Qed.

Lemma do_Stat_eq p w :
  do_Stat p w = (os_Stat (disk w) p, add_events w [EvStat p]).
Proof. done. Qed.

Lemma do_vcs_Open_eq vcsType dir w :
  do_vcs_Open vcsType dir w =
    match vcs_Open (disk w) vcsType dir with
    | Some err => (inr err, add_events w [EvVcsOpen vcsType dir])
    | None => (inl (Handle (heap w) vcsType dir),
               World (svc w) (disk w) (S (heap w)) (trace w ++ [EvVcsOpen vcsType dir]))
    end.
Proof.
  unfold do_vcs_Open. cbv [mbind M_bind emit get_disk]. cbn [disk].
  by destruct (vcs_Open (disk w) vcsType dir).
Qed.

Lemma open_publish_eq key repo w :
  open_publish key repo w =
    match repos (svc w) !! key with
    | Some repo' =>
        (repo', World (set_repoUsers (<[key := int_wrap (users (svc w) key + 1)]>) (svc w))
                  (disk w) (heap w) (trace w))
    | None =>
        (repo, World (set_repos (<[key := repo]>)
                        (set_repoUsers (<[key := int_wrap (users (svc w) key + 1)]>) (svc w)))
                 (disk w) (heap w) (trace w))
    end.
Proof.
  unfold open_publish. cbv [mbind M_bind get_svc put_svc mret M_ret].
  cbn [set_repoUsers repos]. by destruct (repos (svc w) !! key).
Qed.

End steps.

Section task_lemmas.
Context `{B : Backend}.

Lemma task_sound_bind {A C} I G (Q : A → world → Prop) (Q' : C → world → Prop)
    (f : A → task C) (t : task A) :
  task_sound I G Q t →
  (∀ a, task_sound I G Q' (f a)) →
  (∀ a c w, Q a w → f a = Done c → Q' c w) →
  task_sound I G Q' (task_bind f t).
Proof.
  intros Ht Hf HQ. induction t as [a|X m k IH]; [apply Hf|].
  cbn [task_bind task_sound] in *. intros w Hw.
  destruct (Ht w Hw) as (HI & HG & Hdone & Hk).
  split; [done|]. split; [done|]. split; [|by apply IH].
  intros c Hc. destruct (k (m w).1) as [a|Y m' k'] eqn:Hkx; [|discriminate].
  cbn [task_bind] in Hc. eapply HQ; [|exact Hc]. by apply Hdone.
Qed.

(** A task run without interruption does what its steps do. *)
Lemma run_sound {A} I G (Q : A → world → Prop) (t : task A) : ∀ w,
  task_sound I G Q t → I w →
  I (run t w).2 ∧ rtc G w (run t w).2.
Proof.
  induction t as [a|X m k IH]; intros w Ht Hw; cbn [run].
  - split; [done|]. reflexivity.
  - cbn [task_sound] in Ht. destruct (Ht w Hw) as (HI & HG & _ & Hk).
    destruct (m w) as [x w1]. cbn [fst snd] in *.
    destruct (IH x w1 Hk HI) as [HI2 HG2].
    split; [done|]. by eapply rtc_l.
Qed.

(** The steps of [open], one by one: a call out that leaves an event, the
    allocation of the handle, and the second critical section, which
    counts and, when no handle is there, publishes. *)
Lemma open_sound I G (Q : result handle → world → Prop) (key : path) :
  (∀ w, I w → G w w) →
  (∀ w evs, I w → I (add_events w evs) ∧ G w (add_events w evs)) →
  (∀ w evs, I w →
     let w' := World (svc w) (disk w) (S (heap w)) (trace w ++ evs) in I w' ∧ G w w') →
  (∀ w repo', I w → repos (svc w) !! key = Some repo' →
     let w' := World (set_repoUsers (<[key := int_wrap (users (svc w) key + 1)]>) (svc w))
                 (disk w) (heap w) (trace w) in
     I w' ∧ G w w' ∧ Q (inl repo') w') →
  (∀ w a vcsType, I w → repos (svc w) !! key = None →
     let w' := World (set_repos (<[key := Handle a vcsType key]>)
                        (set_repoUsers (<[key := int_wrap (users (svc w) key + 1)]>) (svc w)))
                 (disk w) (heap w) (trace w) in
     I w' ∧ G w w' ∧ Q (inl (Handle a vcsType key)) w') →
  (∀ err w, Q (inr err) w) →
  (∀ h w, repos (svc w) !! key = Some h → Q (inl h) w) →
  task_sound I G Q (open key).
Proof.
  intros Hrefl Henv Halloc Hcount Hpub Qerr Qhit.
  unfold open. cbv [atomic mbind task_mbind task_bind mret task_ret].
  cbn [task_sound]. intros w Hw. rewrite do_vcsTypeFromDir_eq. cbn [fst snd].
  destruct (Henv w [EvDetect key] Hw) as [HI HG].
  split; [done|]. split; [done|].
  destruct (vcsTypeFromDir (disk w) key) as [vcsType|err]; [|split; [|exact Logic.I]].
  2:{ by intros a [= <-]. }
  split; [done|]. clear w Hw HI HG. cbn [task_sound]. intros w Hw.
  rewrite open_cached_eq. cbn [fst snd].
  split; [done|]. split; [by apply Hrefl|].
  destruct (repos (svc w) !! key) as [repo|] eqn:Hrepo.
  { split; [|exact Logic.I]. intros a [= <-]. by apply Qhit. }
  split; [done|]. clear w Hw Hrepo. cbn [task_sound]. intros w Hw.
  rewrite do_Stat_eq. cbn [fst snd].
  destruct (Henv w [EvStat key] Hw) as [HI HG].
  split; [done|]. split; [done|].
  destruct (os_Stat (disk w) key) as [[]|err].
  { split; [|exact Logic.I]. by intros a [= <-]. }
  2:{ split; [|exact Logic.I]. by intros a [= <-]. }
  split; [done|]. clear w Hw HI HG. cbn [task_sound]. intros w Hw.
  rewrite do_vcs_Open_eq.
  destruct (vcs_Open (disk w) vcsType key) as [err|]; cbn [fst snd].
  { destruct (Henv w [EvVcsOpen vcsType key] Hw) as [HI HG].
    split; [done|]. split; [done|]. split; [|exact Logic.I]. by intros a [= <-]. }
  destruct (Halloc w [EvVcsOpen vcsType key] Hw) as [HI HG].
  split; [done|]. split; [done|]. split; [done|].
  generalize (heap w). intros a. clear w Hw HI HG.
  cbn [task_sound]. intros w Hw. rewrite open_publish_eq.
  destruct (repos (svc w) !! key) as [repo'|] eqn:Hrepo; cbn [fst snd].
  - destruct (Hcount w repo' Hw Hrepo) as (HI & HG & HQ).
    split; [done|]. split; [done|]. split; [|exact Logic.I]. by intros ? [= <-].
  - destruct (Hpub w a vcsType Hw Hrepo) as (HI & HG & HQ).
    split; [done|]. split; [done|]. split; [|exact Logic.I]. by intros ? [= <-].
Qed.

Lemma open_not_Done key (r : result handle) : open key ≠ Done r.
Proof. unfold open. cbv [atomic mbind task_mbind task_bind]. discriminate. Qed.

(** [Open]: the read of the configuration, then [open]. *)
Lemma Open_sound I G (Q : result handle → world → Prop) (repoPath : path) :
  (∀ w, I w → G w w) →
  (∀ w, I w → task_sound I G Q (open (CloneDir (svc w) repoPath).1)) →
  task_sound I G Q (Open repoPath).
Proof.
  intros Hrefl Ho. unfold Open. cbv [atomic mbind task_mbind task_bind mret task_ret].
  cbn [task_sound]. intros w Hw. cbv [get_svc]. cbn [fst snd].
  split; [done|]. split; [by apply Hrefl|].
  unfold CloneDir in *. cbn [fst snd] in *. split; [|by apply Ho].
  intros a Ha. by apply open_not_Done in Ha.
Qed.

End task_lemmas.

Section race.
Context `{B : Backend}.

Lemma open_race_sound (sd key : path) :
  task_sound (λ w, StorageDir (svc w) = sd) (handle_stays key)
    (returns_published key) (open key).
Proof.
  apply open_sound.
  - by intros w _ h.
  - intros w evs Hw. split; [done|by intros h].
  - intros w evs Hw. split; [done|by intros h].
  - intros w repo' Hw Hrepo. split; [done|]. split; [by intros h|]. by intros h [= <-].
  - intros w a vcsType Hw Hrepo. split; [done|]. split.
    + intros h Hh. congruence.
    + intros h [= <-]. cbn. apply lookup_insert_eq.
  - by intros err w h.
  - by intros h w Hh h' [= <-].
Qed.

Lemma Open_race_sound (repoPath : path) (sd : path) :
  task_sound (λ w, StorageDir (svc w) = sd)
    (handle_stays (filepath_Join sd (EncodeRepositoryPath repoPath)))
    (returns_published (filepath_Join sd (EncodeRepositoryPath repoPath)))
    (Open repoPath).
Proof.
  apply Open_sound; [by intros w _ h|].
  intros w Hw. unfold CloneDir. cbn [fst]. rewrite Hw. apply open_race_sound.
Qed.

(** X1.  Any number of goroutines call [Open] for the same repository and
    run under any schedule, with no [Close] in between.  Whichever of them
    have returned with a handle have returned the same instance, and it is
    the one the registry keeps for the clone directory. *)
Theorem Open_race_one_instance (repoPath : path) (n : nat) (sched : list nat)
    (w : world) (i j : nat) (h1 h2 : handle) :
  let res := interleave sched (replicate n (Open repoPath)) w in
  res.1 !! i = Some (Done (inl h1)) →
  res.1 !! j = Some (Done (inl h2)) →
  h1 = h2 ∧ repos (svc res.2) !! (CloneDir (svc w) repoPath).1 = Some h1.
Proof.
  intros res Hi Hj. subst res.
  set (sd := StorageDir (svc w)).
  set (key := filepath_Join sd (EncodeRepositoryPath repoPath)).
  destruct (interleave_sound (λ w, StorageDir (svc w) = sd) (handle_stays key)
              (returns_published key)
              ltac:(intros a w1 w2 HG HQ h Hh; by apply HG, HQ)
              sched (replicate n (Open repoPath)) w eq_refl) as (_ & _ & Hpool).
  { apply Forall_replicate. split; [apply Open_race_sound|].
    intros a Ha. exfalso. revert Ha. unfold Open.
    cbv [atomic mbind task_mbind task_bind]. discriminate. }
  rewrite Forall_lookup in Hpool.
  destruct (Hpool i _ Hi) as [_ H1]. destruct (Hpool j _ Hj) as [_ H2].
  specialize (H1 _ eq_refl _ eq_refl). specialize (H2 _ eq_refl _ eq_refl).
  split; [congruence|]. exact H1.
Qed.

End race.

Lemma Open_race_one_instance_witness :
  let res := interleave [0; 0; 0; 0; 0; 1; 1; 1; 1; 1; 0; 1]%nat
               (replicate 2 (Open (B := spec_backend) ["x"; "y"])) w_cloned in
  Handle 0 "git" ["store"; "x"; "y"] = Handle 0 "git" ["store"; "x"; "y"] ∧
  repos (svc res.2) !! ["store"; "x"; "y"] = Some (Handle 0 "git" ["store"; "x"; "y"]).
Proof.
  apply (Open_race_one_instance (B := spec_backend) ["x"; "y"] 2
           [0; 0; 0; 0; 0; 1; 1; 1; 1; 1; 0; 1]%nat w_cloned 0 1).
  - vm_compute. reflexivity.
  - vm_compute. reflexivity.
Defined.

(** ** The shape of the maps *)

Section shape.
Context `{B : Backend}.

Lemma registry_wf_same w w' :
  svc w' = svc w → (heap w ≤ heap w')%nat → registry_wf w → registry_wf w'.
Proof.
  intros Hs Hh (Hlt & Hinj & Hdir). unfold registry_wf. rewrite Hs.
  split; [|done]. intros k mu Hmu. specialize (Hlt k mu Hmu). lia.
Qed.

Lemma registry_wf_count w key c d t :
  registry_wf w →
  registry_wf (World (set_repoUsers (<[key := c]>) (svc w)) d (heap w) t).
Proof.
  intros (Hlt & Hinj & Hdir). split; [done|]. split; [done|].
  intros k h Hh. cbn in *. destruct (Hdir k h Hh) as [Hd Hc]. split; [done|].
  destruct (decide (key = k)) as [->|Hne].
  - rewrite lookup_insert_eq. by eexists.
  - by rewrite lookup_insert_ne.
Qed.

Lemma registry_wf_publish w key h c d t :
  h_dir h = key → registry_wf w →
  registry_wf (World (set_repos (<[key := h]>) (set_repoUsers (<[key := c]>) (svc w)))
                 d (heap w) t).
Proof.
  intros Hkey (Hlt & Hinj & Hdir). split; [done|]. split; [done|].
  intros k h' Hh. cbn in *. destruct (decide (key = k)) as [->|Hne].
  - rewrite lookup_insert_eq in Hh. rewrite lookup_insert_eq. simplify_eq.
    split; [done|]. by eexists.
  - rewrite lookup_insert_ne in Hh by done. rewrite lookup_insert_ne by done. eauto.
Qed.

Lemma registry_wf_close w key :
  registry_wf w →
  registry_wf (World (close_key key (svc w)) (disk w) (heap w) (trace w)).
Proof.
  intros (Hlt & Hinj & Hdir). unfold registry_wf. cbn [svc heap].
  rewrite repoMu_close_key. split; [done|]. split; [done|].
  intros k h. unfold close_key. case_bool_decide; cbn.
  - intros Hh. destruct (decide (key = k)) as [->|Hne].
    + by rewrite lookup_delete_eq in Hh.
    + rewrite lookup_delete_ne in Hh by done.
      rewrite lookup_delete_ne, lookup_insert_ne by done. eauto.
  - intros Hh. destruct (Hdir k h Hh) as [Hd Hc]. split; [done|].
    destruct (decide (key = k)) as [->|Hne].
    + rewrite lookup_insert_eq. by eexists.
    + by rewrite lookup_insert_ne.
Qed.

Lemma registry_wf_Mutex key w : registry_wf w → registry_wf (Mutex key w).2.
Proof.
  intros Hwf. destruct (repoMu (svc w) !! key) as [mu|] eqn:Hmu.
  - by rewrite (Mutex_present key w mu).
  - rewrite Mutex_absent by done. cbn [snd].
    destruct Hwf as (Hlt & Hinj & Hdir). unfold registry_wf. cbn.
    split; [|split; [|done]].
    + intros k mu. destruct (decide (key = k)) as [->|Hne].
      * rewrite lookup_insert_eq. intros [= <-]. lia.
      * rewrite lookup_insert_ne by done. intros Hk. specialize (Hlt k mu Hk). lia.
    + intros k1 k2 mu.
      destruct (decide (k1 = key)) as [->|Hne1], (decide (k2 = key)) as [->|Hne2];
        rewrite ?lookup_insert_eq, ?lookup_insert_ne by done; try done.
      * intros [= <-] Hk. specialize (Hlt k2 _ Hk). lia.
      * intros Hk [= <-]. specialize (Hlt k1 _ Hk). lia.
      * apply Hinj.
Qed.

Lemma registry_frame_refl w : registry_frame w w.
Proof. by repeat split. Qed.

Lemma registry_frame_trans w1 w2 w3 :
  registry_frame w1 w2 → registry_frame w2 w3 → registry_frame w1 w3.
Proof.
  intros (Hd1 & Hs1 & Hm1) (Hd2 & Hs2 & Hm2).
  split; [congruence|]. split; [congruence|]. eauto.
Qed.

Lemma rtc_registry_frame w w' : rtc registry_frame w w' → registry_frame w w'.
Proof.
  induction 1; [apply registry_frame_refl|]. by eapply registry_frame_trans.
Qed.

Lemma registry_frame_Mutex key w : registry_frame w (Mutex key w).2.
Proof.
  destruct (repoMu (svc w) !! key) as [mu|] eqn:Hmu.
  - rewrite (Mutex_present key w mu) by done. apply registry_frame_refl.
  - rewrite Mutex_absent by done. split; [done|]. split; [done|].
    intros k mu Hk. cbn. rewrite lookup_insert_ne; [done|]. intros ->. congruence.
Qed.

Lemma open_wf_sound (key : path) :
  task_sound registry_wf registry_frame (λ _ _, True) (open key).
Proof.
  apply open_sound; [intros w _; apply registry_frame_refl| | | | |done|done].
  - intros w evs Hw. split; [by eapply registry_wf_same|by repeat split].
  - intros w evs Hw. split; [eapply registry_wf_same; [..|exact Hw]; cbn; [done|lia]|].
    by repeat split.
  - intros w repo' Hw _. split; [by apply registry_wf_count|]. by repeat split.
  - intros w a vcsType Hw _. split; [by apply registry_wf_publish|]. by repeat split.
Qed.

Lemma go_sound (g : gcall) :
  task_sound registry_wf registry_frame (λ _ _, True) (go g).
Proof.
  destruct g as [repoPath|repoPath|key]; unfold go; cbv [mbind task_mbind].
  - eapply task_sound_bind with (Q := λ _ _, True); [|done..].
    apply Open_sound; [intros w _; apply registry_frame_refl|].
    intros w _. apply open_wf_sound.
  - eapply task_sound_bind with (Q := λ _ _, True); [|done..].
    unfold Close. cbv [atomic mbind task_mbind task_bind mret task_ret].
    cbn [task_sound]. intros w Hw. cbv [get_svc CloneDir]. cbn [fst snd].
    split; [done|]. split; [apply registry_frame_refl|]. split; [done|].
    intros w1 Hw1. cbv [M_bind put_svc M_ret]. cbn [fst snd].
    split; [by apply registry_wf_close|]. split; [|done].
    split; [done|]. cbn. by rewrite StorageDir_close_key, repoMu_close_key.
  - eapply task_sound_bind with (Q := λ _ _, True); [|done..].
    cbv [atomic]. cbn [task_sound]. intros w Hw.
    split; [by apply registry_wf_Mutex|]. split; [apply registry_frame_Mutex|done].
Qed.

(** X2.  A service is created and any number of goroutines call [Open],
    [Close] and [Mutex], for any repositories, under any schedule.  At
    every point the disk and the storage directory are what they were, no
    two clone directories share a lock, and every handle the registry keeps
    is a repository opened at the clone directory it is kept under and has
    a count on record. *)
Theorem goroutines_keep_registry (storageDir : path) (d : fs) (gs : list gcall)
    (sched : list nat) :
  let w := (interleave sched (go <$> gs) (boot storageDir d)).2 in
  disk w = d ∧ StorageDir (svc w) = storageDir ∧
  (∀ k1 k2 mu, repoMu (svc w) !! k1 = Some mu → repoMu (svc w) !! k2 = Some mu → k1 = k2) ∧
  (∀ k h, repos (svc w) !! k = Some h →
     h_dir h = k ∧ is_Some (repoUsers (svc w) !! k)).
Proof.
  intros w. subst w.
  destruct (interleave_sound registry_wf registry_frame (λ (_ : unit) _, True)
              ltac:(done) sched (go <$> gs) (boot storageDir d)) as (Hwf & Hfr & _).
  - by repeat split.
  - apply Forall_fmap, Forall_true. intros g. split; [apply go_sound|done].
  - apply rtc_registry_frame in Hfr. destruct Hfr as (Hd & Hs & _).
    destruct Hwf as (_ & Hinj & Hdir). done.
Qed.

End shape.

(** ** Calls one after the other *)

Section histories.
Context `{B : Backend}.

Lemma keeps_ret {A} I (a : A) : keeps I (mret a).
Proof. by intros w. Qed.

Lemma keeps_bind {A C} I (m : M A) (f : A → M C) :
  keeps I m → (∀ a, keeps I (f a)) → keeps I (m ≫= f).
Proof.
  intros Hm Hf w Hw. cbv [mbind M_bind]. specialize (Hm w Hw).
  destruct (m w) as [a w1]. by apply Hf.
Qed.

Lemma keeps_wf_emit e : keeps registry_wf (emit e).
Proof. intros w Hw. by eapply registry_wf_same. Qed.

Lemma keeps_wf_get_disk : keeps registry_wf get_disk.
Proof. by intros w. Qed.

Lemma keeps_wf_put_disk d : keeps registry_wf (put_disk d).
Proof. intros w Hw. by eapply registry_wf_same. Qed.

Lemma keeps_wf_get_svc : keeps registry_wf get_svc.
Proof. by intros w. Qed.

Lemma keeps_wf_open key : keeps registry_wf (run (open key)).
Proof. intros w Hw. by eapply run_sound; [apply open_wf_sound|]. Qed.

Lemma keeps_wf_Mutex key : keeps registry_wf (Mutex key).
Proof. intros w. apply registry_wf_Mutex. Qed.

Local Ltac keeps_step :=
  first
    [ apply keeps_ret | apply keeps_wf_emit | apply keeps_wf_get_disk
    | apply keeps_wf_put_disk | apply keeps_wf_get_svc | apply keeps_wf_open
    | apply keeps_wf_Mutex
    | apply keeps_bind; [|intros ?]
    | match goal with
      | |- keeps _ (match ?x with _ => _ end) => destruct x
      end ].

Lemma keeps_wf_Clone_locked cloneDir info : keeps registry_wf (Clone_locked cloneDir info).
Proof.
  unfold Clone_locked, Clone_into, do_MkdirAll, do_TempDir, do_vcs_Clone,
    do_Rename, do_RemoveAll.
  repeat keeps_step.
Qed.

Lemma keeps_wf_Clone repoPath info : keeps registry_wf (Clone repoPath info).
Proof.
  unfold Clone. apply keeps_bind; [apply keeps_wf_get_svc|]. intros s.
  unfold CloneDir. cbn [fst snd]. apply keeps_bind; [apply keeps_wf_open|]. intros r.
  destruct (negb (IsNotExist (err_of r))); [apply keeps_ret|].
  apply keeps_bind; [apply keeps_wf_Mutex|]. intros mu.
  apply keeps_bind; [apply keeps_wf_emit|]. intros _.
  apply keeps_bind; [apply keeps_wf_Clone_locked|]. intros r'.
  apply keeps_bind; [apply keeps_wf_emit|]. intros _. apply keeps_ret.
Qed.

Lemma run_call_wf c w : registry_wf w → registry_wf (run_call c w).
Proof.
  intros Hw. destruct c as [repoPath|repoPath|repoPath info|key]; cbn [run_call].
  - rewrite run_Open_open. by apply keeps_wf_open.
  - rewrite run_Close. by apply registry_wf_close.
  - by apply keeps_wf_Clone.
  - by apply registry_wf_Mutex.
Qed.

Lemma run_calls_wf cs : ∀ w, registry_wf w → registry_wf (run_calls cs w).
Proof.
  induction cs as [|c cs IH]; intros w Hw; [done|].
  rewrite run_calls_cons. by apply IH, run_call_wf.
Qed.

Lemma svc_grow_backed lo s s' :
  - 2 ^ 63 ≤ lo ≤ 0 →
  svc_grow s s' → counts_backed lo s → counts_backed lo s'.
Proof.
  intros Hlo Hgrow Hinv. destruct Hgrow as [s key repo Hk|s key mu Hk]; [|done].
  intros k c. cbn. destruct (decide (key = k)) as [->|Hne].
  - rewrite !lookup_insert_eq. intros [= <-].
    assert (lo - 1 < users s k ≤ 0) as Hrange.
    { unfold users. destruct (repoUsers s !! k) as [c|] eqn:Hc; cbn; [|lia].
      destruct (Hinv k c Hc) as [Hr Hpos].
      destruct (decide (0 < c)) as [Hc0|]; [|lia].
      destruct (Hpos Hc0) as [? ?]. congruence. }
    rewrite int_wrap_small by lia. split; [lia|]. by eexists.
  - rewrite !lookup_insert_ne by done. apply Hinv.
Qed.

Lemma rtc_svc_grow_backed lo s s' :
  - 2 ^ 63 ≤ lo ≤ 0 →
  rtc svc_grow s s' → counts_backed lo s → counts_backed lo s'.
Proof. intros Hlo. induction 1; eauto using svc_grow_backed. Qed.

Lemma close_key_backed lo key s :
  - 2 ^ 63 < lo ≤ 0 →
  counts_backed lo s → counts_backed (lo - 1) (close_key key s).
Proof.
  intros Hlo Hinv.
  assert (lo ≤ users s key < 2 ^ 63 ∧ (0 < users s key → is_Some (repos s !! key)))
    as [Hrange Hpos].
  { unfold users. destruct (repoUsers s !! key) as [c|] eqn:Hc; cbn; [by apply Hinv|].
    split; lia. }
  intros k c. unfold close_key. rewrite users_set.
  rewrite int_wrap_small by lia. case_bool_decide as Hz; cbn.
  - destruct (decide (key = k)) as [->|Hne].
    + by rewrite lookup_delete_eq.
    + rewrite !lookup_delete_ne, lookup_insert_ne by done.
      intros Hc. destruct (Hinv k c Hc). split; [lia|done].
  - destruct (decide (key = k)) as [->|Hne].
    + rewrite lookup_insert_eq. intros [= <-]. split; [lia|].
      intros Hc. apply Hpos. lia.
    + rewrite lookup_insert_ne by done.
      intros Hc. destruct (Hinv k c Hc). split; [lia|done].
Qed.

Lemma run_call_backed lo c w :
  - 2 ^ 63 < lo ≤ 0 →
  counts_backed lo (svc w) → counts_backed (lo - 1) (svc (run_call c w)).
Proof.
  intros Hlo Hinv. destruct (run_call_cases c w) as [Hgrow|[key ->]].
  - apply (rtc_svc_grow_backed lo) in Hgrow; [|lia|done].
    intros k c' Hc'. destruct (Hgrow k c' Hc'). split; [lia|done].
  - by apply close_key_backed.
Qed.

Lemma run_calls_backed cs : ∀ lo w,
  lo ≤ 0 → - 2 ^ 63 < lo - Z.of_nat (length cs) + 1 →
  counts_backed lo (svc w) →
  counts_backed (lo - Z.of_nat (length cs)) (svc (run_calls cs w)).
Proof.
  induction cs as [|c cs IH]; intros lo w Hlo Hlen Hinv.
  - cbn. by rewrite Z.sub_0_r.
  - rewrite run_calls_cons. cbn [length] in *.
    replace (lo - Z.of_nat (S (length cs))) with (lo - 1 - Z.of_nat (length cs)) by lia.
    apply IH; [lia|lia|]. apply run_call_backed; [lia|done].
Qed.

(** X3.  A service is created and fewer than 2^63 calls of [Open],
    [Close], [Clone] and [Mutex] are made, none overlapping another.  Then
    a count above zero is the count of a clone directory that has a handle
    in [repos]; every handle in [repos] has a count on record and is a
    repository opened at the clone directory it is kept under; and the
    locks of two clone directories are two objects. *)
Theorem calls_keep_registry (storageDir : path) (d : fs) (cs : list call) :
  Z.of_nat (length cs) < 2 ^ 63 →
  let s := svc (run_calls cs (boot storageDir d)) in
  (∀ k c, repoUsers s !! k = Some c → 0 < c → is_Some (repos s !! k)) ∧
  (∀ k h, repos s !! k = Some h → h_dir h = k ∧ is_Some (repoUsers s !! k)) ∧
  (∀ k1 k2 mu, repoMu s !! k1 = Some mu → repoMu s !! k2 = Some mu → k1 = k2).
Proof.
  intros Hlen s. subst s.
  assert (registry_wf (run_calls cs (boot storageDir d))) as (_ & Hinj & Hdir).
  { apply run_calls_wf. by repeat split. }
  split; [|done].
  intros k c Hc. eapply (run_calls_backed cs 0 (boot storageDir d)); [lia|lia| |exact Hc].
  by intros k' c'.
Qed.

End histories.

Lemma calls_keep_registry_witness :
  is_Some (repos (svc (run_calls (B := spec_backend)
                         [CallClone ["x"; "y"] good_info; CallClose ["a"]; CallOpen ["x"; "y"]]
                         (boot ["store"] ∅))) !! ["store"; "x"; "y"]).
Proof.
  refine (proj1 (calls_keep_registry (B := spec_backend) ["store"] ∅
                   [CallClone ["x"; "y"] good_info; CallClose ["a"]; CallOpen ["x"; "y"]] _)
            ["store"; "x"; "y"] 1 _ _).
  - simpl. lia.
  - vm_compute. reflexivity.
  - lia.
Defined.

(** ** What a call leaves alone *)

Section frames.
Context `{B : Backend}.

Lemma open_outcome_failed key w err w' :
  open_outcome key w (inr err) w' → svc w' = svc w.
Proof. by inversion 1. Qed.

Lemma open_outcome_other key w r w' k :
  k ≠ key → open_outcome key w r w' →
  repos (svc w') !! k = repos (svc w) !! k ∧
  repoUsers (svc w') !! k = repoUsers (svc w) !! k.
Proof.
  intros Hne Hout. destruct Hout; cbn; try done.
  by rewrite !lookup_insert_ne.
Qed.

(** X4.  No handle and no count are on record for the clone directory of
    [repoPath], and [Open] succeeds.  Then the handle it returns is kept
    under the clone directory with a count of 1, and the [Close] that
    matches it puts handles, counts and locks back exactly as they were;
    the disk has not changed. *)
Theorem Open_Close_round_trip (repoPath : path) (w : world) (h : handle) :
  let key := (CloneDir (svc w) repoPath).1 in
  let w1 := (run (Open repoPath) w).2 in
  let w2 := (run (Close repoPath) w1).2 in
  repos (svc w) !! key = None →
  repoUsers (svc w) !! key = None →
  (run (Open repoPath) w).1 = inl h →
  repos (svc w1) !! key = Some h ∧ repoUsers (svc w1) !! key = Some 1 ∧
  svc w2 = svc w ∧ disk w2 = disk w.
Proof.
  intros key w1 w2 Hrepo Hcount Hres. subst w1 w2 key. rewrite run_Close.
  rewrite run_Open_open in *. unfold CloneDir in *. cbn [fst] in *.
  set (key := filepath_Join _ _) in *.
  pose proof (run_open_outcome key w) as Hout.
  destruct (run (open key) w) as [r w1]. cbn [fst snd] in *. subst r.
  inversion Hout as [| |? | | |vcsType Hty _ Hdir Hopen]; subst; [congruence|].
  cbn [svc disk StorageDir set_repos set_repoUsers repos repoUsers].
  fold key. unfold users. rewrite Hcount. cbn [default].
  rewrite (int_wrap_small (0 + 1)) by lia.
  rewrite !lookup_insert_eq. split; [done|]. split; [done|]. split; [|done].
  unfold close_key, users. cbn [set_repoUsers set_repos repoUsers repos StorageDir repoMu].
  cbn [default from_option id].
  rewrite !lookup_insert_eq. cbn [default from_option id].
  rewrite (int_wrap_small (0 + 1 - 1)) by lia.
  rewrite bool_decide_true by done.
  unfold set_repos, set_repoUsers. cbn [StorageDir repoMu repos repoUsers].
  rewrite insert_insert_eq, !delete_insert_id by done. by destruct (svc w).
Qed.

(** X5.  [Open] and [Close] of one repository leave the handle and the
    count of every other clone directory as they were. *)
Theorem Open_Close_other_keys (repoPath : path) (w : world) (k : path) :
  k ≠ (CloneDir (svc w) repoPath).1 →
  let wo := (run (Open repoPath) w).2 in
  let wc := (run (Close repoPath) w).2 in
  repos (svc wo) !! k = repos (svc w) !! k ∧
  repoUsers (svc wo) !! k = repoUsers (svc w) !! k ∧
  repos (svc wc) !! k = repos (svc w) !! k ∧
  repoUsers (svc wc) !! k = repoUsers (svc w) !! k.
Proof.
  intros Hne wo wc. subst wo wc. rewrite run_Close, run_Open_open. cbn [snd svc].
  destruct (open_outcome_other _ w _ _ k Hne (run_open_outcome _ w)) as [-> ->].
  destruct (close_key_other k (CloneDir (svc w) repoPath).1 (svc w)) as [-> ->]; done.
Qed.

Lemma Clone_locked_failed cloneDir info w err :
  (Clone_locked cloneDir info w).1 = inr err →
  svc (Clone_locked cloneDir info w).2 = svc w.
Proof.
  unfold Clone_locked, Clone_into.
  pose proof (run_open_outcome cloneDir) as Hopen.
  set (ro := run (open cloneDir)) in *. clearbody ro.
  cbv [mbind M_bind]. pose proof (Hopen w) as Hout0.
  destruct (ro w) as [r0 w0]. cbn [fst snd] in *.
  destruct (negb (IsNotExist (err_of r0))) eqn:Hne0.
  { cbn. intros ->. by eapply open_outcome_failed. }
  assert (svc w0 = svc w) as Hs0.
  { destruct r0 as [h|e]; [done|]. by eapply open_outcome_failed. }
  unfold do_MkdirAll, do_TempDir. cbv [mbind M_bind mret M_ret emit get_disk put_disk].
  cbn [disk svc heap trace].
  destruct (os_MkdirAll (disk w0) (filepath_Dir cloneDir)) as [d1|err1]; [|done].
  cbn [disk svc heap trace].
  destruct (ioutil_TempDir d1 (filepath_Dir cloneDir) _) as [[tmp d2]|err2]; [|done].
  unfold do_vcs_Clone, do_Rename, do_RemoveAll.
  cbv [mbind M_bind mret M_ret emit get_disk put_disk]. cbn [disk svc heap trace].
  destruct (vcs_Clone d2 info tmp) as [d3 [err3|]]; [done|].
  cbn [disk svc heap trace].
  destruct (os_Rename d3 tmp cloneDir) as [d4|err4]; [|done].
  set (w4 := World _ d4 _ _). pose proof (Hopen w4) as Hout4.
  destruct (ro w4) as [r4 w5]. cbn [fst snd svc] in *. intros ->.
  apply open_outcome_failed in Hout4. by rewrite Hout4.
Qed.

(** X6.  A call of [Clone] that fails leaves handles and counts as they
    were; of the locks it adds at most the one of the clone directory. *)
Theorem failed_Clone_leaves_registry (repoPath : path) (info : CloneInfo) (w : world)
    (err : error) :
  (Clone repoPath info w).1 = inr err →
  repos (svc (Clone repoPath info w).2) = repos (svc w) ∧
  repoUsers (svc (Clone repoPath info w).2) = repoUsers (svc w) ∧
  ∀ k, k ≠ (CloneDir (svc w) repoPath).1 →
    repoMu (svc (Clone repoPath info w).2) !! k = repoMu (svc w) !! k.
Proof.
  unfold Clone. cbv [mbind M_bind get_svc CloneDir]. cbn [fst snd].
  set (cloneDir := filepath_Join _ _).
  pose proof (run_open_outcome repoPath w) as Hout0.
  pose proof (Clone_locked_failed cloneDir info) as Hlocked.
  set (ro := run (open repoPath)) in *. clearbody ro.
  set (cl := Clone_locked cloneDir info) in *. clearbody cl.
  destruct (ro w) as [r0 w0]. cbn [fst snd] in *.
  destruct (negb (IsNotExist (err_of r0))) eqn:Hne0; cbn [fst snd mret M_ret].
  { intros ->. apply open_outcome_failed in Hout0. by rewrite Hout0. }
  assert (svc w0 = svc w) as Hs0.
  { destruct r0 as [h|e]; [done|]. by eapply open_outcome_failed. }
  assert (repos (svc (Mutex cloneDir w0).2) = repos (svc w) ∧
          repoUsers (svc (Mutex cloneDir w0).2) = repoUsers (svc w) ∧
          ∀ k, k ≠ cloneDir →
            repoMu (svc (Mutex cloneDir w0).2) !! k = repoMu (svc w) !! k) as Hmu.
  { rewrite <- Hs0. destruct (repoMu (svc w0) !! cloneDir) as [mu|] eqn:Hmu.
    - by rewrite (Mutex_present cloneDir w0 mu).
    - rewrite Mutex_absent by done. cbn. repeat split.
      intros k Hk. by rewrite lookup_insert_ne. }
  destruct (Mutex cloneDir w0) as [mu w1]. cbn [fst snd] in *.
  cbv [emit]. set (w2 := World (svc w1) _ _ _).
  specialize (Hlocked w2). destruct (cl w2) as [r3 w3].
  cbv [mret M_ret]. cbn [fst snd svc] in *.
  intros ->. by rewrite (Hlocked err eq_refl).
Qed.

End frames.

Lemma Open_Close_round_trip_witness :
  svc (run (Close (B := spec_backend) ["x"; "y"])
         (run (Open (B := spec_backend) ["x"; "y"]) w_cloned).2).2 = svc w_cloned.
Proof.
  refine (proj1 (proj2 (proj2 (Open_Close_round_trip (B := spec_backend) ["x"; "y"] w_cloned
                                 (Handle 0 "git" ["store"; "x"; "y"]) _ _ _)))).
  - reflexivity.
  - reflexivity.
  - vm_compute. reflexivity.
Defined.

Lemma Open_Close_other_keys_witness :
  repos (svc (run (Close (B := spec_backend) ["a"]) w_opened).2) !! ["store"; "x"; "y"]
    = repos (svc w_opened) !! ["store"; "x"; "y"].
Proof.
  refine (proj1 (proj2 (proj2 (Open_Close_other_keys (B := spec_backend) ["a"] w_opened
                                 ["store"; "x"; "y"] _)))).
  vm_compute. discriminate.
Defined.

Lemma failed_Clone_leaves_registry_witness :
  repos (svc (Clone (B := spec_backend) ["a"; "b"] bad_info w_opened).2) = repos (svc w_opened).
Proof.
  refine (proj1 (failed_Clone_leaves_registry (B := spec_backend) ["a"; "b"] bad_info w_opened
                   (Errorf "exec `git clone` failed") _)).
  vm_compute. reflexivity.
Defined.

(** ** [Clone] and its lock *)

Section lock_discipline.
Context `{B : Backend}.

Lemma emits_ret {A} P (a : A) : emits P (mret a).
Proof. intros w. exists []. by rewrite app_nil_r. Qed.

Lemma emits_bind {A C} P (m : M A) (f : A → M C) :
  emits P m → (∀ a, emits P (f a)) → emits P (m ≫= f).
Proof.
  intros Hm Hf w. cbv [mbind M_bind]. destruct (Hm w) as (evs1 & Htr1 & HP1).
  destruct (m w) as [a w1]. cbn [snd] in *.
  destruct (Hf a w1) as (evs2 & Htr2 & HP2).
  exists (evs1 ++ evs2). rewrite Htr2, Htr1, <- app_assoc. split; [done|].
  by apply Forall_app.
Qed.

Lemma emits_emit (P : event → Prop) e : P e → emits P (emit e).
Proof. intros He w. exists [e]. split; [done|]. by constructor. Qed.

Lemma emits_get_disk P : emits P get_disk.
Proof. intros w. exists []. by rewrite app_nil_r. Qed.

Lemma emits_put_disk P d : emits P (put_disk d).
Proof. intros w. exists []. cbn. by rewrite app_nil_r. Qed.

(** [open] only reads: it leaves the disk as it is and makes no call but
    detection, [os.Stat] and [vcs.Open]. *)
Lemma open_outcome_reads key w r w' :
  open_outcome key w r w' →
  disk w' = disk w ∧
  ∃ evs, trace w' = trace w ++ evs ∧ Forall (λ e, is_read_event e = true) evs.
Proof.
  destruct 1; cbn; (split; [done|]); eexists; (split; [done|]); by repeat constructor.
Qed.

Lemma emits_open key : emits (λ e, is_lock_event e = false) (run (open key)).
Proof.
  intros w. destruct (open_outcome_reads _ _ _ _ (run_open_outcome key w))
    as (_ & evs & Htr & Hread).
  exists evs. split; [done|]. eapply Forall_impl; [exact Hread|].
  by intros [].
Qed.

Local Ltac emits_step :=
  first
    [ apply emits_ret | apply emits_emit; reflexivity | apply emits_get_disk
    | apply emits_put_disk | apply emits_open
    | apply emits_bind; [|intros ?]
    | match goal with
      | |- emits _ (match ?x with _ => _ end) => destruct x
      | |- emits _ (let '(_, _) := ?x in _) => destruct x
      end ].

Lemma emits_Clone_locked cloneDir info :
  emits (λ e, is_lock_event e = false) (Clone_locked cloneDir info).
Proof.
  unfold Clone_locked, Clone_into, do_MkdirAll, do_TempDir, do_vcs_Clone,
    do_Rename, do_RemoveAll.
  repeat emits_step.
Qed.

(** X7.  What [Clone] does about the lock.  It starts with calls that only
    read the disk.  Either that is all it does, and the disk is as it was;
    or it then takes one lock, the one kept in [repoMu] for the clone
    directory, and its last act is to release that lock: whatever it
    creates, renames or removes on disk, it does while holding the lock,
    and it takes and releases no other lock. *)
Theorem Clone_lock_discipline (repoPath : path) (info : CloneInfo) (w : world) :
  let cloneDir := (CloneDir (svc w) repoPath).1 in
  let w' := (Clone repoPath info w).2 in
  ∃ pre, Forall (λ e, is_read_event e = true) pre ∧
    ((events_since w w' = pre ∧ disk w' = disk w) ∨
     ∃ mu mid, events_since w w' = pre ++ [EvLock mu] ++ mid ++ [EvUnlock mu] ∧
       Forall (λ e, is_lock_event e = false) mid ∧
       repoMu (svc w') !! cloneDir = Some mu).
Proof.
  intros cloneDir w'. subst cloneDir w'. unfold Clone.
  cbv [mbind M_bind get_svc CloneDir]. cbn [fst snd].
  set (cloneDir := filepath_Join _ _).
  pose proof (open_outcome_reads _ _ _ _ (run_open_outcome repoPath w))
    as (Hdisk & pre & Htr0 & Hread).
  pose proof (emits_Clone_locked cloneDir info) as Hemits.
  pose proof (grows_Clone_locked cloneDir info) as Hgrows.
  set (ro := run (open repoPath)) in *. clearbody ro.
  set (cl := Clone_locked cloneDir info) in *. clearbody cl.
  exists pre. split; [done|].
  destruct (ro w) as [r0 w0]. cbn [fst snd] in *.
  destruct (negb (IsNotExist (err_of r0))); cbn [fst snd mret M_ret].
  { left. split; [by apply events_since_app|done]. }
  right. pose proof (Mutex_frame cloneDir w0) as (_ & Hmt & _).
  pose proof (Mutex_stored cloneDir w0) as Hst.
  destruct (Mutex cloneDir w0) as [mu w1]. cbn [fst snd] in *.
  cbv [emit]. set (w2 := World (svc w1) _ _ _).
  destruct (Hemits w2) as (mid & Htr & Hmid). specialize (Hgrows w2).
  destruct (cl w2) as [r3 w3]. cbv [mret M_ret]. cbn [fst snd svc trace] in *.
  exists mu, mid. split; [|split; [done|]].
  - apply events_since_app. cbn [trace]. rewrite Htr. subst w2. cbn [trace].
    rewrite Hmt, Htr0. by rewrite <- !app_assoc.
  - by eapply rtc_svc_grow_repoMu.
Qed.

End lock_discipline.

(** ** [Clone] and the executor *)

Section executor_once.
Context `{B : Backend}.

Lemma tmp_sibling_ne (cloneDir : path) (name : string) :
  name ≠ filepath_Base cloneDir → filepath_Dir cloneDir ++ [name] ≠ cloneDir.
Proof.
  intros Hname Heq. destruct (decide (cloneDir = [])) as [->|Hne]; [done|].
  destruct (exists_last Hne) as (dir & base & ->).
  unfold filepath_Dir, filepath_Base in *.
  rewrite removelast_last in Heq. rewrite last_last in Hname.
  by apply app_inj_tail in Heq as [_ ?].
Qed.

Lemma Clone_locked_once cloneDir info w :
  ∃ evs, trace (Clone_locked cloneDir info w).2 = trace w ++ evs ∧
    (executor_calls evs = [] ∨
     ∃ tmp e, executor_calls evs = [(tmp, e)] ∧
       filepath_Dir tmp = filepath_Dir cloneDir ∧ tmp ≠ cloneDir ∧
       (∀ p, tmp `prefix_of` p → disk (Clone_locked cloneDir info w).2 !! p = None) ∧
       (∀ err, e = Some err → (Clone_locked cloneDir info w).1 = inr err)).
Proof.
  unfold Clone_locked, Clone_into.
  pose proof (λ w, open_outcome_frame _ _ _ _ (run_open_outcome cloneDir w)) as Hopen.
  set (ro := run (open cloneDir)) in *. clearbody ro.
  destruct (Hopen w) as (Hdisk & _ & _ & evs0 & Htr0 & Hex0).
  cbv [mbind M_bind]. destruct (ro w) as [r0 w0]. cbn [fst snd] in *.
  destruct (negb (IsNotExist (err_of r0))).
  { exists evs0. eauto. }
  unfold do_MkdirAll, do_TempDir. cbv [mbind M_bind mret M_ret emit get_disk put_disk].
  cbn [disk svc heap trace].
  destruct (os_MkdirAll (disk w0) (filepath_Dir cloneDir)) as [d1|err1] eqn:Hmk;
    cbn [fst snd disk svc heap trace].
  2:{ exists (evs0 ++ [EvMkdirAll (filepath_Dir cloneDir)]). rewrite Htr0, <- app_assoc.
      split; [done|]. left. by rewrite executor_calls_app, Hex0. }
  set (pfx := "_tmp_" +:+ filepath_Base cloneDir +:+ "-").
  destruct (ioutil_TempDir d1 (filepath_Dir cloneDir) pfx) as [[tmp d2]|err2] eqn:Htmp;
    cbn [fst snd disk svc heap trace].
  2:{ exists (evs0 ++ [EvMkdirAll (filepath_Dir cloneDir); EvTempDir (filepath_Dir cloneDir) pfx]).
      rewrite Htr0, <- !app_assoc. split; [done|]. left.
      by rewrite executor_calls_app, Hex0. }
  assert (tmp = filepath_Dir cloneDir ++ [pfx +:+ temp_suffix d1 (filepath_Dir cloneDir) pfx])
    as Htmp_eq.
  { unfold ioutil_TempDir in Htmp. repeat case_match; simplify_eq. done. }
  assert (filepath_Dir tmp = filepath_Dir cloneDir ∧ tmp ≠ cloneDir) as [Hdir Hneq].
  { rewrite Htmp_eq. split.
    - unfold filepath_Dir at 1. by rewrite removelast_last.
    - apply tmp_sibling_ne, tmp_name_fresh. }
  unfold do_vcs_Clone, do_Rename, do_RemoveAll.
  cbv [mbind M_bind mret M_ret emit get_disk put_disk]. cbn [disk svc heap trace].
  destruct (vcs_Clone d2 info tmp) as [d3 [err3|]] eqn:Hcl; cbn [fst snd disk svc heap trace].
  - exists (evs0 ++ [EvMkdirAll (filepath_Dir cloneDir); EvTempDir (filepath_Dir cloneDir) pfx;
                     EvVcsClone tmp (Some err3); EvRemoveAll tmp]).
    rewrite Htr0, <- !app_assoc. split; [done|]. right.
    exists tmp, (Some err3). rewrite executor_calls_app, Hex0.
    split; [done|]. split; [done|]. split; [done|]. split.
    + intros p Hp. rewrite lookup_RemoveAll. by rewrite decide_True.
    + by intros err [= <-].
  - destruct (os_Rename d3 tmp cloneDir) as [d4|err4] eqn:Hren;
      cbn [fst snd disk svc heap trace].
    + set (w4 := World _ d4 _ _).
      destruct (Hopen w4) as (Hd4 & _ & _ & evs4 & Htr4 & Hex4).
      destruct (ro w4) as [r4 w5]. cbn [fst snd disk svc heap trace] in *.
      exists (evs0 ++ [EvMkdirAll (filepath_Dir cloneDir); EvTempDir (filepath_Dir cloneDir) pfx;
                       EvVcsClone tmp None; EvRename tmp cloneDir] ++ evs4 ++ [EvRemoveAll tmp]).
      rewrite Htr4. subst w4. cbn [trace]. rewrite Htr0, <- !app_assoc. cbn [app].
      split; [by rewrite <- ?app_assoc|]. right. exists tmp, None.
      rewrite !executor_calls_app, Hex0. cbn. rewrite executor_calls_app, Hex4.
      split; [done|]. split; [done|]. split; [done|]. split; [|done].
      intros p Hp. rewrite lookup_RemoveAll. by rewrite decide_True.
    + exists (evs0 ++ [EvMkdirAll (filepath_Dir cloneDir); EvTempDir (filepath_Dir cloneDir) pfx;
                       EvVcsClone tmp None; EvRename tmp cloneDir; EvRemoveAll tmp]).
      rewrite Htr0, <- !app_assoc. split; [done|]. right. exists tmp, None.
      rewrite executor_calls_app, Hex0.
      split; [done|]. split; [done|]. split; [done|]. split; [|done].
      intros p Hp. rewrite lookup_RemoveAll. by rewrite decide_True.
Qed.

(** X8.  A call of [Clone] runs the Clone Executor at most once.  When it
    does, the directory it hands the executor is a sibling of the clone
    directory, never the clone directory itself, and neither that
    directory nor anything below it is on disk once [Clone] has returned,
    however the call ended; and if the executor failed, its error is what
    [Clone] returns. *)
Theorem Clone_executor_once (repoPath : path) (info : CloneInfo) (w : world) :
  let cloneDir := (CloneDir (svc w) repoPath).1 in
  let w' := (Clone repoPath info w).2 in
  executor_calls (events_since w w') = [] ∨
  ∃ tmp e, executor_calls (events_since w w') = [(tmp, e)] ∧
    filepath_Dir tmp = filepath_Dir cloneDir ∧ tmp ≠ cloneDir ∧
    (∀ p, tmp `prefix_of` p → disk w' !! p = None) ∧
    (∀ err, e = Some err → (Clone repoPath info w).1 = inr err).
Proof.
  intros cloneDir w'. subst cloneDir w'. unfold Clone.
  cbv [mbind M_bind get_svc CloneDir]. cbn [fst snd].
  set (cloneDir := filepath_Join _ _).
  pose proof (open_outcome_frame _ _ _ _ (run_open_outcome repoPath w)) as Hopen.
  pose proof (Clone_locked_once cloneDir info) as Hlocked.
  set (ro := run (open repoPath)) in *. clearbody ro.
  set (cl := Clone_locked cloneDir info) in *. clearbody cl.
  destruct (ro w) as [r0 w0]. cbn [fst snd] in Hopen.
  destruct Hopen as (Hdisk & _ & _ & evs0 & Htr0 & Hex0).
  destruct (negb (IsNotExist (err_of r0))); cbn [fst snd mret M_ret].
  { left. by rewrite (events_since_app _ _ _ Htr0). }
  pose proof (Mutex_frame cloneDir w0) as (Hmd & Hmt & _).
  destruct (Mutex cloneDir w0) as [mu w1]. cbn [fst snd] in *.
  cbv [emit]. set (w2 := World (svc w1) _ _ _).
  destruct (Hlocked w2) as (evs & Htr & Hcases).
  destruct (cl w2) as [r3 w3]. cbv [mret M_ret]. cbn [fst snd disk] in *.
  assert (events_since w (World (svc w3) (disk w3) (heap w3) (trace w3 ++ [EvUnlock mu]))
          = evs0 ++ [EvLock mu] ++ evs ++ [EvUnlock mu]) as ->.
  { apply events_since_app. cbn [trace]. rewrite Htr. subst w2. cbn [trace].
    rewrite Hmt, Htr0. by rewrite <- !app_assoc. }
  rewrite !executor_calls_app. rewrite Hex0. cbn. rewrite app_nil_r.
  destruct Hcases as [->|(tmp & e & -> & Hrest)]; [by left|].
  right. by exists tmp, e.
Qed.

End executor_once.

(** ** A clone that is made *)

Section cloned.
Context `{B : Backend}.

Lemma lookup_subtree (p : path) (d : fs) (k : path) (n : node) :
  subtree p d !! k = Some n ↔ d !! k = Some n ∧ p `prefix_of` k.
Proof. unfold subtree. by rewrite map_lookup_filter_Some. Qed.

(** What was at [old ++ q] is at [new ++ q] in the re-rooted subtree. *)
Lemma lookup_rerooted (old new : path) (d : fs) (q : path) :
  rerooted old new d !! (new ++ q) = d !! (old ++ q).
Proof.
  apply option_eq. intros n. unfold rerooted.
  rewrite <- elem_of_list_to_map.
  - rewrite list_elem_of_fmap. split.
    + intros ([k v] & Heq & Hin). cbn in Heq. injection Heq as Hq ->.
      apply app_inv_head in Hq.
      apply elem_of_map_to_list, lookup_subtree in Hin as [Hk [k' ->]].
      rewrite drop_app_length in Hq. by subst.
    + intros Hn. exists (old ++ q, n). cbn. rewrite drop_app_length. split; [done|].
      apply elem_of_map_to_list, lookup_subtree. split; [done|]. by exists q.
  - rewrite <- list_fmap_compose. apply NoDup_fmap_2_strong; [|apply NoDup_map_to_list].
    intros [k1 v1] [k2 v2] H1 H2 Heq. cbn in Heq. apply app_inv_head in Heq.
    apply elem_of_map_to_list, lookup_subtree in H1 as [H1 [q1 ->]].
    apply elem_of_map_to_list, lookup_subtree in H2 as [H2 [q2 ->]].
    rewrite !drop_app_length in Heq. subst. congruence.
Qed.

(** After [os.Rename] the new path holds what the old one held. *)
Lemma lookup_Rename_moved (d d' : fs) (old new q : path) :
  os_Rename d old new = inl d' → old ≠ new →
  d' !! (new ++ q) = d !! (old ++ q).
Proof.
  intros Hren Hne.
  assert (d' = rerooted old new d ∪ os_RemoveAll (os_RemoveAll d old) new) as ->.
  { unfold os_Rename in Hren. destruct (d !! old); [|done].
    rewrite bool_decide_false in Hren by done.
    repeat case_match; simplify_eq; done. }
  rewrite lookup_union, lookup_rerooted, lookup_RemoveAll.
  rewrite decide_True by (by exists q). by destruct (d !! (old ++ q)).
Qed.

Lemma open_outcome_success key w h w' :
  open_outcome key w (inl h) w' → repos (svc w') !! key = Some h.
Proof. inversion 1; subst; cbn; [done|]. apply lookup_insert_eq. Qed.

Lemma Clone_locked_cloned cloneDir info w h evs :
  cloneDir ≠ [] →
  (Clone_locked cloneDir info w).1 = inl h →
  trace (Clone_locked cloneDir info w).2 = trace w ++ evs →
  executor_calls evs ≠ [] →
  ∃ tmp d1, executor_calls evs = [(tmp, None)] ∧
    os_MkdirAll (disk w) (filepath_Dir cloneDir) = inl d1 ∧
    (∀ q, disk (Clone_locked cloneDir info w).2 !! (cloneDir ++ q)
          = (vcs_Clone (<[tmp := Dir]> d1) info tmp).1 !! (tmp ++ q)) ∧
    repos (svc (Clone_locked cloneDir info w).2) !! cloneDir = Some h.
Proof.
  intros Hne. unfold Clone_locked, Clone_into.
  pose proof (λ w, open_outcome_frame _ _ _ _ (run_open_outcome cloneDir w)) as Hopen.
  pose proof (run_open_outcome cloneDir) as Hout.
  set (ro := run (open cloneDir)) in *. clearbody ro.
  destruct (Hopen w) as (Hdisk & _ & _ & evs0 & Htr0 & Hex0).
  cbv [mbind M_bind]. destruct (ro w) as [r0 w0] eqn:Hro. cbn [fst snd] in *.
  destruct (negb (IsNotExist (err_of r0))).
  { cbn. intros _ Htr. rewrite Htr0 in Htr. apply app_inv_head in Htr. congruence. }
  unfold do_MkdirAll, do_TempDir. cbv [mbind M_bind mret M_ret emit get_disk put_disk].
  cbn [disk svc heap trace].
  destruct (os_MkdirAll (disk w0) (filepath_Dir cloneDir)) as [d1|err1] eqn:Hmk;
    cbn [fst snd disk svc heap trace]; [|done].
  set (pfx := "_tmp_" +:+ filepath_Base cloneDir +:+ "-").
  destruct (ioutil_TempDir d1 (filepath_Dir cloneDir) pfx) as [[tmp d2]|err2] eqn:Htmp;
    cbn [fst snd disk svc heap trace]; [|done].
  assert (tmp = filepath_Dir cloneDir ++ [pfx +:+ temp_suffix d1 (filepath_Dir cloneDir) pfx]
          ∧ d2 = <[tmp := Dir]> d1) as [Htmp_eq Hd2].
  { unfold ioutil_TempDir in Htmp. repeat case_match; simplify_eq. done. }
  unfold do_vcs_Clone, do_Rename, do_RemoveAll.
  cbv [mbind M_bind mret M_ret emit get_disk put_disk]. cbn [disk svc heap trace].
  destruct (vcs_Clone d2 info tmp) as [d3 [err3|]] eqn:Hcl;
    cbn [fst snd disk svc heap trace]; [done|].
  destruct (os_Rename d3 tmp cloneDir) as [d4|err4] eqn:Hren;
    cbn [fst snd disk svc heap trace]; [|done].
  set (w4 := World _ d4 _ _).
  destruct (Hopen w4) as (Hd4 & _ & _ & evs4 & Htr4 & Hex4).
  specialize (Hout w4).
  destruct (ro w4) as [r4 w5]. cbn [fst snd disk svc heap trace] in *.
  intros -> Htr _. exists tmp, d1.
  rewrite Htr4 in Htr. subst w4. cbn [trace] in Htr.
  rewrite Htr0, <- !app_assoc in Htr. apply app_inv_head in Htr. subst evs.
  rewrite !executor_calls_app, Hex0, Hex4. cbn.
  split; [done|]. rewrite <- Hdisk. split; [done|]. split.
  - intros q. rewrite lookup_RemoveAll, decide_False.
    + rewrite Hd4. cbn [disk]. rewrite <- Hd2.
      replace (vcs_Clone d2 info tmp).1 with d3 by (by rewrite Hcl).
      eapply lookup_Rename_moved; [done|].
      rewrite Htmp_eq. apply tmp_sibling_ne, tmp_name_fresh.
    + intros Hp. rewrite Htmp_eq in Hp.
      eapply sibling_disjoint; [exact Hne| |exact Hp|by exists q].
      apply tmp_name_fresh.
  - by apply open_outcome_success in Hout.
Qed.

(** X9.  A call of [Clone] for a clone directory other than the working
    directory has run the Clone Executor and has returned a handle.  Then
    the executor ran once, into a temporary directory [tmp], and did not
    fail; the clone directory now holds, path for path, what the executor
    left below [tmp] when started on the disk with the parent directories
    and [tmp] made; and the handle returned is the one [repos] keeps for
    the clone directory. *)
Theorem Clone_moves_clone_into_place (repoPath : path) (info : CloneInfo) (w : world)
    (h : handle) :
  let cloneDir := (CloneDir (svc w) repoPath).1 in
  let w' := (Clone repoPath info w).2 in
  cloneDir ≠ [] →
  (Clone repoPath info w).1 = inl h →
  executor_calls (events_since w w') ≠ [] →
  ∃ tmp d1, executor_calls (events_since w w') = [(tmp, None)] ∧
    os_MkdirAll (disk w) (filepath_Dir cloneDir) = inl d1 ∧
    (∀ q, disk w' !! (cloneDir ++ q)
          = (vcs_Clone (<[tmp := Dir]> d1) info tmp).1 !! (tmp ++ q)) ∧
    repos (svc w') !! cloneDir = Some h.
Proof.
  intros cloneDir w'. subst cloneDir w'. unfold Clone.
  cbv [mbind M_bind get_svc CloneDir]. cbn [fst snd].
  set (cloneDir := filepath_Join _ _). intros Hne.
  pose proof (open_outcome_frame _ _ _ _ (run_open_outcome repoPath w)) as Hopen.
  pose proof (Clone_locked_cloned cloneDir info) as Hlocked.
  pose proof (Clone_locked_once cloneDir info) as Honce.
  set (ro := run (open repoPath)) in *. clearbody ro.
  set (cl := Clone_locked cloneDir info) in *. clearbody cl.
  destruct (ro w) as [r0 w0]. cbn [fst snd] in Hopen.
  destruct Hopen as (Hdisk & _ & _ & evs0 & Htr0 & Hex0).
  destruct (negb (IsNotExist (err_of r0))); cbn [fst snd mret M_ret].
  { intros _. by rewrite (events_since_app _ _ _ Htr0). }
  pose proof (Mutex_frame cloneDir w0) as (Hmd & Hmt & _).
  destruct (Mutex cloneDir w0) as [mu w1]. cbn [fst snd] in *.
  cbv [emit]. set (w2 := World (svc w1) _ _ _).
  destruct (Honce w2) as (evs & Htr & _).
  specialize (Hlocked w2 h evs Hne).
  destruct (cl w2) as [r3 w3]. cbv [mret M_ret]. cbn [fst snd disk svc] in *.
  assert (events_since w (World (svc w3) (disk w3) (heap w3) (trace w3 ++ [EvUnlock mu]))
          = evs0 ++ [EvLock mu] ++ evs ++ [EvUnlock mu]) as ->.
  { apply events_since_app. cbn [trace]. rewrite Htr. subst w2. cbn [trace].
    rewrite Hmt, Htr0. by rewrite <- !app_assoc. }
  rewrite !executor_calls_app. rewrite Hex0. cbn. rewrite app_nil_r.
  intros Hres Hcalls. destruct (Hlocked Hres Htr Hcalls) as (tmp & d1 & Hex & Hmk & Hq & Hh).
  exists tmp, d1. subst w2. cbn [disk] in Hmk. rewrite Hmd, Hdisk in Hmk. done.
Qed.

End cloned.

Lemma Clone_moves_clone_into_place_witness :
  let w' := (Clone (B := spec_backend) ["x"; "y"] good_info w_empty).2 in
  ∃ tmp d1, executor_calls (events_since w_empty w') = [(tmp, None)] ∧
    os_MkdirAll (disk w_empty) ["store"; "x"] = inl d1 ∧
    (∀ q, disk w' !! (["store"; "x"; "y"] ++ q)
          = (spec_vcs_Clone (<[tmp := Dir]> d1) good_info tmp).1 !! (tmp ++ q)) ∧
    repos (svc w') !! ["store"; "x"; "y"] = Some (Handle 1 "git" ["store"; "x"; "y"]).
Proof.
  apply (Clone_moves_clone_into_place (B := spec_backend) ["x"; "y"] good_info w_empty
           (Handle 1 "git" ["store"; "x"; "y"])).
  - discriminate.
  - vm_compute. reflexivity.
  - vm_compute. discriminate.
Defined.

(** ** Tree entries and file infos *)

Section tree_entries.

Lemma land_pow2 (m k : Z) :
  0 ≤ k → Z.land m (2 ^ k) = if Z.testbit m k then 2 ^ k else 0.
Proof.
  intros Hk. apply Z.bits_inj'. intros n Hn. rewrite Z.land_spec.
  destruct (decide (n = k)) as [->|Hne].
  - rewrite Z.pow2_bits_true by done. rewrite andb_true_r.
    destruct (Z.testbit m k); [by rewrite Z.pow2_bits_true|by rewrite Z.bits_0].
  - rewrite (Z.pow2_bits_false k n) by lia. rewrite andb_false_r.
    destruct (Z.testbit m k); [by rewrite Z.pow2_bits_false by lia|by rewrite Z.bits_0].
Qed.

(** X11.  A tree entry of one of the three kinds, with no contents and no
    entries attached and a size that fits an [int], is got back unchanged
    from the file info [Stat] makes of it.  An entry of any other type,
    the empty one included, comes back as a file. *)
Theorem TreeEntry_Stat_round_trip (e : TreeEntry) :
  te_Contents e = None → te_Entries e = None →
  - 2 ^ 63 ≤ te_Size e < 2 ^ 63 →
  (te_Type e ∈ [FileEntry; DirEntry; SymlinkEntry] →
     newTreeEntry (TreeEntry_Stat e) = e) ∧
  (te_Type e ≠ DirEntry → te_Type e ≠ SymlinkEntry →
     te_Type (newTreeEntry (TreeEntry_Stat e)) = FileEntry).
Proof.
  destruct e as [name ty size mtime contents entries]. cbn [te_Contents te_Entries te_Size te_Type].
  intros -> -> Hsize. unfold newTreeEntry, TreeEntry_Stat.
  cbn [fi_name fi_size fi_mode fi_mtime te_Name te_Type te_Size te_ModTime].
  rewrite int_wrap_small by done. split.
  - intros Hty. f_equal.
    apply elem_of_cons in Hty as [->|Hty]; [by vm_compute|].
    apply elem_of_cons in Hty as [->|Hty]; [by vm_compute|].
    apply list_elem_of_singleton in Hty as ->. by vm_compute.
  - intros Hd Hs. apply String.eqb_neq in Hd, Hs. rewrite Hd, Hs. by vm_compute.
Qed.

(** X12.  What is left of a file info that has been through [newTreeEntry]
    and [Stat].  Name and modification time are kept, the size is kept as
    an [int], and a directory stays a directory.  Of the mode only the
    kind is left: [ModeDir] for a directory, nothing for a regular file,
    [ModeSymlink] for anything else with the symlink bit; the permission
    bits are gone, and a file that is neither regular, nor a directory, nor
    a symlink (a pipe, a socket, a device) comes back as a regular file. *)
Theorem newTreeEntry_Stat (fi : FileInfo) :
  let fi' := TreeEntry_Stat (newTreeEntry fi) in
  fi_name fi' = fi_name fi ∧ fi_mtime fi' = fi_mtime fi ∧
  fi_size fi' = int_wrap (fi_size fi) ∧
  IsDir (fi_mode fi') = IsDir (fi_mode fi) ∧
  Z.land (fi_mode fi') ModePerm = 0 ∧
  (IsDir (fi_mode fi) = true → fi_mode fi' = ModeDir) ∧
  (IsDir (fi_mode fi) = false → IsRegular (fi_mode fi) = true → fi_mode fi' = 0) ∧
  (IsDir (fi_mode fi) = false → IsRegular (fi_mode fi) = false →
     fi_mode fi' = Z.land (fi_mode fi) ModeSymlink ∧
     (Z.land (fi_mode fi) ModeSymlink = 0 → IsRegular (fi_mode fi') = true)).
Proof.
  intros fi'. subst fi'. unfold TreeEntry_Stat, newTreeEntry.
  cbn [fi_name fi_size fi_mode fi_mtime te_Name te_Type te_Size te_ModTime].
  split; [done|]. split; [done|]. split; [done|].
  destruct (IsDir (fi_mode fi)) eqn:Hdir.
  { cbn. split; [by vm_compute|]. split; [by vm_compute|]. done. }
  destruct (IsRegular (fi_mode fi)) eqn:Hreg.
  { cbn. split; [by vm_compute|]. split; [by vm_compute|]. done. }
  unfold ModeSymlink in *. rewrite Z.shiftl_1_l in *.
  rewrite (land_pow2 (fi_mode fi) 27) by lia.
  destruct (Z.testbit (fi_mode fi) 27); cbn;
    (split; [by vm_compute|]); (split; [by vm_compute|]); done.
Qed.

End tree_entries.

Lemma TreeEntry_Stat_round_trip_witness :
  newTreeEntry (TreeEntry_Stat
    {| te_Name := "lib"; te_Type := SymlinkEntry; te_Size := 7; te_ModTime := 1400000000;
       te_Contents := None; te_Entries := None |})
  = {| te_Name := "lib"; te_Type := SymlinkEntry; te_Size := 7; te_ModTime := 1400000000;
       te_Contents := None; te_Entries := None |}.
Proof.
  refine (proj1 (TreeEntry_Stat_round_trip
    {| te_Name := "lib"; te_Type := SymlinkEntry; te_Size := 7; te_ModTime := 1400000000;
       te_Contents := None; te_Entries := None |} eq_refl eq_refl _) _).
  - cbn. lia.
  - cbn. set_solver.
Defined.

(** ** Revisions, branches and tags *)

Section resolve.
Context `{G : Git}.

(** X13.  [ResolveBranch] and [ResolveTag] report no error but their own
    not-found error.  Whenever [ResolveRevision] fails in another way,
    because [git] could not be run or failed for another reason than an
    unknown revision, or because the name begins with [-] and was refused
    before [git] was run, they return the empty commit id and a [nil]
    error. *)
Theorem ResolveBranch_drops_errors (dir name : string) :
  ((ResolveBranch dir name).2 = None ∨ (ResolveBranch dir name).2 = Some ErrBranchNotFound) ∧
  ((ResolveTag dir name).2 = None ∨ (ResolveTag dir name).2 = Some ErrTagNotFound) ∧
  (String.prefix "-" name = true →
     ResolveBranch dir name = (EmptyString, None) ∧
     ResolveTag dir name = (EmptyString, None)) ∧
  (∀ err, (ResolveRevision dir name).2 = Some err → err ≠ ErrRevisionNotFound →
     ResolveBranch dir name = (EmptyString, None) ∧
     ResolveTag dir name = (EmptyString, None)).
Proof.
  unfold ResolveBranch, ResolveTag.
  split; [|split; [|split]].
  - destruct (ResolveRevision dir name) as [id err]. case_decide; cbn; auto.
  - destruct (ResolveRevision dir name) as [id err]. case_decide; cbn; auto.
  - intros Hpre. unfold ResolveRevision, checkSpecArgSafety. rewrite Hpre.
    by rewrite !decide_False by done.
  - intros err Herr Hne.
    assert ((ResolveRevision dir name).1 = EmptyString) as Hid.
    { revert Herr. unfold ResolveRevision.
      destruct (checkSpecArgSafety name); cbn; [done|].
      destruct (git_run dir ["rev-parse"; name]) as [out [e|]]; cbn; [|done].
      by destruct (bytes_Contains out "unknown revision"). }
    destruct (ResolveRevision dir name) as [id err']. cbn in *. subst.
    by rewrite !decide_False by congruence.
Qed.

End resolve.

(** ** The refs of a repository *)

Section show_ref.
Context `{G : Git}.

Lemma length_substring (s : string) : ∀ n m,
  (n + m ≤ String.length s)%nat → String.length (String.substring n m s) = m.
Proof.
  induction s as [|c s IH]; intros n m Hlen; cbn in *.
  - destruct n, m; cbn; lia.
  - destruct n as [|n].
    + destruct m as [|m]; [done|]. cbn. rewrite IH; lia.
    + apply IH. lia.
Qed.

Lemma showRef_lines_inl lines refs :
  showRef_lines lines = inl refs →
  Forall (λ line, (41 < String.length line)%nat) lines ∧
  refs = (λ line, (String.substring 0 40 line,
                   String.substring 41 (String.length line - 41) line)) <$> lines.
Proof.
  revert refs. induction lines as [|line lines IH]; intros refs; cbn [showRef_lines].
  - intros [= <-]. by split.
  - destruct (String.length line <=? 41)%nat eqn:Hlen; [done|].
    apply Nat.leb_gt in Hlen.
    destruct (showRef_lines lines) as [refs'|err]; [|done].
    intros [= <-]. destruct (IH refs' eq_refl) as [Hall ->].
    split; [by constructor|done].
Qed.

Lemma bytes_Split_nonempty s sep : bytes_Split s sep ≠ [].
Proof.
  destruct s as [|c s]; cbn; [done|].
  destruct (Ascii.eqb c sep); [done|]. by destruct (bytes_Split s sep).
Qed.

Global Instance bytes_le_total : Total bytes_le.
Proof. intros a b. apply String.leb_total. Qed.

(** X14.  When [showRef] returns refs, they are the lines of [git]'s
    output (less one trailing newline), put in ascending order, each cut
    into its first 40 bytes and what follows byte 41.  So every id has 40
    bytes, no name is empty, and there is at least one ref; byte 41 of a
    line is dropped whatever it is. *)
Theorem showRef_parses (dir arg : string) (refs : list (string * string)) :
  showRef dir arg = (Some refs, None) →
  let out := (git_run dir ["show-ref"; arg]).1 in
  ∃ lines,
    lines ≡ₚ bytes_Split (bytes_TrimSuffix out (String newline EmptyString)) newline ∧
    Sorted bytes_le lines ∧
    refs = (λ line, (String.substring 0 40 line,
                     String.substring 41 (String.length line - 41) line)) <$> lines ∧
    Forall (λ ref, String.length ref.1 = 40%nat ∧ ref.2 ≠ EmptyString) refs ∧
    refs ≠ [].
Proof.
  unfold showRef. destruct (git_run dir ["show-ref"; arg]) as [out [e|]]; cbn [fst].
  { by destruct (_ && _). }
  set (lines := sort_byteSlices _).
  destruct (showRef_lines lines) as [refs'|err] eqn:Hparse; [|done].
  intros [= <-]. apply showRef_lines_inl in Hparse as [Hlong ->].
  exists lines. split; [apply merge_sort_Permutation|].
  split; [apply Sorted_merge_sort, _|]. split; [done|]. split.
  - apply Forall_fmap. eapply Forall_impl; [exact Hlong|].
    intros line Hlen. cbn beta in Hlen. cbn [fst snd]. split.
    + apply length_substring. lia.
    + intros Hname. apply (f_equal String.length) in Hname. cbn [fst snd] in Hname.
      rewrite length_substring in Hname by lia. cbn in Hname. lia.
  - intros Hnil. apply fmap_nil_inv in Hnil.
    assert (lines ≡ₚ bytes_Split (bytes_TrimSuffix out (String newline EmptyString)) newline)
      as Hperm by apply merge_sort_Permutation.
    rewrite Hnil in Hperm. symmetry in Hperm. apply Permutation_nil_r in Hperm.
    by apply bytes_Split_nonempty in Hperm.
Qed.

(** X15.  A [git show-ref] that finds nothing and says so (exit status 1,
    no output) gives [showRef] no refs and no error.  One that exits with
    status 0 and prints nothing, or only a newline, does not give the
    empty list: [showRef] fails on the empty line it splits off. *)
Theorem showRef_no_output (dir arg : string) :
  (git_run dir ["show-ref"; arg] = (EmptyString, Some (ExitError 1)) →
     showRef dir arg = (None, None)) ∧
  (git_run dir ["show-ref"; arg] = (EmptyString, None) ∨
   git_run dir ["show-ref"; arg] = (String newline EmptyString, None) →
     showRef dir arg =
       (None, Some (ErrorsNew
          "unexpectedly short (<=41 bytes) line in `git show-ref ...` output"))).
Proof.
  unfold showRef. split.
  - by intros ->.
  - by intros [-> | ->].
Qed.

End show_ref.

Lemma showRef_parses_witness :
  ∃ lines,
    lines ≡ₚ bytes_Split
               (bytes_TrimSuffix (git_run (Git := sample_git) "repo" ["show-ref"; "--heads"]).1
                  (String newline EmptyString)) newline ∧
    Sorted bytes_le lines ∧
    [("4f2c1e0a9b8d7c6e5f4a3b2c1d0e9f8a7b6c5d4e", "refs/heads/master")]
      = (λ line, (String.substring 0 40 line,
                  String.substring 41 (String.length line - 41) line)) <$> lines ∧
    Forall (λ ref, String.length ref.1 = 40%nat ∧ ref.2 ≠ EmptyString)
      [("4f2c1e0a9b8d7c6e5f4a3b2c1d0e9f8a7b6c5d4e", "refs/heads/master")] ∧
    [("4f2c1e0a9b8d7c6e5f4a3b2c1d0e9f8a7b6c5d4e", "refs/heads/master")] ≠ [].
Proof.
  apply (showRef_parses (G := sample_git) "repo" "--heads").
  vm_compute. reflexivity.
Defined.

(** ** Goroutines asking for locks *)

Section lock_race.
Context `{B : Backend}.

Lemma go_Mutex_sound key :
  task_sound registry_wf registry_frame lock_on_record (go_Mutex key).
Proof.
  unfold go_Mutex. cbv [atomic mbind task_mbind task_bind mret task_ret].
  cbn [task_sound]. intros w Hw.
  split; [by apply registry_wf_Mutex|]. split; [apply registry_frame_Mutex|].
  split; [|done]. intros r [= <-]. apply Mutex_stored.
Qed.

(** X10.  After any calls made one after the other, goroutines ask
    [Mutex] for the locks of clone directories and run under any schedule.
    Two of them that have returned hold the same lock exactly when they
    asked for the same clone directory. *)
Theorem Mutex_race_same_lock (storageDir : path) (d : fs) (cs : list call)
    (keys : list path) (sched : list nat) (i j : nat) (ki kj : path) (mi mj : nat) :
  let res := interleave sched (go_Mutex <$> keys) (run_calls cs (boot storageDir d)) in
  res.1 !! i = Some (Done (ki, mi)) →
  res.1 !! j = Some (Done (kj, mj)) →
  (mi = mj ↔ ki = kj) ∧
  repoMu (svc res.2) !! ki = Some mi ∧ repoMu (svc res.2) !! kj = Some mj.
Proof.
  intros res Hi Hj. subst res.
  destruct (interleave_sound registry_wf registry_frame lock_on_record
              ltac:(intros r w1 w2 (_ & _ & Hkeep) Hr; by apply Hkeep)
              sched (go_Mutex <$> keys) (run_calls cs (boot storageDir d)))
    as ((_ & Hinj & _) & _ & Hpool).
  - apply run_calls_wf. by repeat split.
  - apply Forall_fmap, Forall_true. intros key. split; [apply go_Mutex_sound|done].
  - rewrite Forall_lookup in Hpool.
    destruct (Hpool i _ Hi) as [_ H1]. destruct (Hpool j _ Hj) as [_ H2].
    specialize (H1 _ eq_refl). specialize (H2 _ eq_refl).
    unfold lock_on_record in *. cbn [fst snd] in *.
    split; [|done]. split.
    + intros ->. by eapply Hinj.
    + intros ->. congruence.
Qed.

End lock_race.

Lemma Mutex_race_same_lock_witness :
  let res := interleave [1; 0; 2; 1]%nat
               (go_Mutex (B := spec_backend) <$> [["store"; "a"]; ["store"; "b"]; ["store"; "a"]])
               (run_calls (B := spec_backend) [CallOpen ["x"; "y"]] (boot ["store"] disk_cloned)) in
  (2%nat = 2%nat ↔ ["store"; "a"] = ["store"; "a"]) ∧
  repoMu (svc res.2) !! ["store"; "a"] = Some 2%nat ∧
  repoMu (svc res.2) !! ["store"; "a"] = Some 2%nat.
Proof.
  apply (Mutex_race_same_lock (B := spec_backend) ["store"] disk_cloned [CallOpen ["x"; "y"]]
           [["store"; "a"]; ["store"; "b"]; ["store"; "a"]] [1; 0; 2; 1]%nat 0 2).
  - vm_compute. reflexivity.
  - vm_compute. reflexivity.
Defined.

(** ** Lowercase letters *)

Section lowercase.
Context `{U : Utf8}.

Lemma indexFunc_lowercase (s : string) : ∀ i,
  utf8_laws → 0 ≤ i →
  (indexFunc i 0 s (λ c, negb ((97 <=? c) && (c <=? 122))) =? -1)
  = forallb (λ c, (97 <=? byte_val c) && (byte_val c <=? 122)) (String.list_ascii_of_string s).
Proof.
  induction s as [|c s IH]; intros i Hlaws Hi; [done|].
  cbn [indexFunc String.list_ascii_of_string forallb].
  destruct (Hlaws c s) as [Hlow Hhigh].
  destruct (decide (byte_val c < 128)) as [Hc|Hc].
  - rewrite Hlow by done. cbn [Nat.sub].
    destruct ((97 <=? byte_val c) && (byte_val c <=? 122)); cbn [negb andb].
    + apply IH; [done|lia].
    + apply Z.eqb_neq. lia.
  - specialize (Hhigh ltac:(lia)).
    destruct (DecodeRuneInString (String c s)) as [r wid]. cbn [fst] in Hhigh.
    replace ((97 <=? r) && (r <=? 122)) with false by lia.
    replace ((97 <=? byte_val c) && (byte_val c <=? 122)) with false by lia.
    cbn [negb andb]. apply Z.eqb_neq. lia.
Qed.

Lemma list_ascii_of_string_app (s1 s2 : string) :
  String.list_ascii_of_string (s1 +:+ s2)
  = String.list_ascii_of_string s1 ++ String.list_ascii_of_string s2.
Proof. induction s1 as [|c s1 IH]; [done|]. cbn. by rewrite <- IH. Qed.

(** X16.  [isLowercaseLetter] says yes exactly when every byte of the
    string is one of the letters [a] to [z].  So it says yes to the empty
    string, and to a concatenation when it says yes to both parts. *)
Theorem isLowercaseLetter_bytes (s1 s2 : string) :
  utf8_laws →
  isLowercaseLetter s1
    = forallb (λ c, (97 <=? byte_val c) && (byte_val c <=? 122)) (String.list_ascii_of_string s1) ∧
  isLowercaseLetter EmptyString = true ∧
  isLowercaseLetter (s1 +:+ s2) = isLowercaseLetter s1 && isLowercaseLetter s2.
Proof.
  intros Hlaws. unfold isLowercaseLetter, strings_IndexFunc.
  rewrite !indexFunc_lowercase by done. split; [done|]. split; [done|].
  rewrite list_ascii_of_string_app. apply forallb_app.
Qed.

End lowercase.

Lemma ascii_decoder_laws : utf8_laws (U := ascii_decoder).
Proof.
  intros c s. cbn. split.
  - intros Hc. by rewrite (proj2 (Z.ltb_lt _ _) Hc).
  - intros Hc. destruct (byte_val c <? 128) eqn:Hlt; cbn; [|lia].
    apply Z.ltb_lt in Hlt. lia.
Qed.

Lemma isLowercaseLetter_bytes_witness :
  isLowercaseLetter (U := ascii_decoder) "git"
    = forallb (λ c, (97 <=? byte_val c) && (byte_val c <=? 122)) (String.list_ascii_of_string "git") ∧
  isLowercaseLetter (U := ascii_decoder) EmptyString = true ∧
  isLowercaseLetter (U := ascii_decoder) ("git" +:+ "Hub")
    = isLowercaseLetter (U := ascii_decoder) "git" && isLowercaseLetter (U := ascii_decoder) "Hub".
Proof.
  apply (isLowercaseLetter_bytes (U := ascii_decoder) "git" "Hub").
  exact ascii_decoder_laws.
Defined.

(** ** Benchmark file names *)

(** X17.  [benchFilename] returns a name for every index from 0 up, and
    panics exactly on the negative indices that are no multiple of 4: the
    remainder of such an index is negative and matches no case.  Every
    index from 0 up that leaves 3 on division by 4 gets the one name
    [file1]. *)
Theorem benchFilename_cases (i : Z) :
  (0 ≤ i → is_Some (benchFilename i)) ∧
  (benchFilename i = None ↔ i < 0 ∧ Z.rem i 4 ≠ 0) ∧
  (0 ≤ i → Z.rem i 4 = 3 → benchFilename i = Some "file1").
Proof.
  unfold benchFilename. split; [|split].
  - intros Hi. pose proof (Z.rem_bound_pos i 4 Hi ltac:(lia)) as Hr.
    destruct (Z.rem i 4) as [|[[|[]|]|[]|]|p]; try lia; by eexists.
  - split.
    + intros Hnone. destruct (decide (0 ≤ i)) as [Hi|Hi].
      * pose proof (Z.rem_bound_pos i 4 Hi ltac:(lia)) as Hr.
        destruct (Z.rem i 4) as [|[[|[]|]|[]|]|p]; try lia; done.
      * split; [lia|]. intros H0. by rewrite H0 in Hnone.
    + intros [Hi Hne]. pose proof (Z.rem_bound_pos_neg i 4 ltac:(lia) ltac:(lia)) as Hr.
      destruct (Z.rem i 4) as [|p|p]; [done|lia|done].
  - intros Hi Hrem. rewrite Hrem.
    assert (Z.rem i 2 = 1) as ->; [|done].
    rewrite Z.rem_mod_nonneg in * by lia.
    pose proof (Z.div_mod i 4 ltac:(lia)) as Hdiv. rewrite Hrem in Hdiv.
    symmetry. apply (Z.mod_unique_pos i 2 (2 * (i / 4) + 1) 1); lia.
Qed.
